(** * pentaho/action/Execution: the action execution phase machine

    A shallow embedding of [pentaho/action/Execution] (the class that drives
    an action through the phases init, will, do and finally) and the
    properties of its state machine.

    The JavaScript object is a record of its private fields; every method is
    a function in a state-and-exception monad over that record.  The
    overridable methods ([_onPhaseInit], [_onPhaseWill], [_onPhaseDo],
    [_doDefault], [_onPhaseFinally]) are arbitrary scripts that may read the
    execution, call its public methods, catch what they throw, and return or
    throw.  Promise reactions of the asynchronous path are explicit steps. *)

From Stdlib Require Import ZArith List String Bool Lia Sorted.
Import ListNotations.

Local Open Scope Z_scope.

(* ================================================================== *)
(** ** Values *)

(** Identity of a JavaScript object: [Own n] is the [n]-th object created
    by the execution itself ([new UserError(..)], [new Promise(..)]),
    [Ext n] an object created by anyone else. *)
Inductive Ref : Type :=
| Ext (n : nat)
| Own (n : nat).

(** An instance of [Error].  The two flags are the answers of
    [reason instanceof UserError] and [reason instanceof RuntimeError]. *)
Record ErrorObj : Type := mkErrorObj {
  err_ref : Ref;
  instanceof_UserError : bool;
  instanceof_RuntimeError : bool;
  err_name : string;
  err_args : list string
}.

Inductive Value : Type :=
| VUndefined
| VNull
| VBool (b : bool)
| VNumber (n : Z)
| VNaN
| VString (s : string)
| VError (err : ErrorObj)
| VObject (r : Ref).

Definition ref_eqb (a b : Ref) : bool :=
  match a, b with
  | Ext n, Ext m => Nat.eqb n m
  | Own n, Own m => Nat.eqb n m
  | _, _ => false
  end.

(** JavaScript truthiness: [!reason] is [negb (truthy reason)]. *)
Definition truthy (v : Value) : bool :=
  match v with
  | VUndefined | VNull | VNaN => false
  | VBool b => b
  | VNumber n => negb (n =? 0)
  | VString s => negb (String.eqb s EmptyString)
  | VError _ | VObject _ => true
  end.

Definition typeof (v : Value) : string :=
  match v with
  | VUndefined => "undefined"
  | VNull | VError _ | VObject _ => "object"
  | VBool _ => "boolean"
  | VNumber _ | VNaN => "number"
  | VString _ => "string"
  end.

(** [a === b]: primitives by value, objects by identity. *)
Definition strict_eq (a b : Value) : bool :=
  match a, b with
  | VUndefined, VUndefined => true
  | VNull, VNull => true
  | VBool x, VBool y => Bool.eqb x y
  | VNumber x, VNumber y => x =? y
  | VString x, VString y => String.eqb x y
  | VError x, VError y => ref_eqb (err_ref x) (err_ref y)
  | VObject x, VObject y => ref_eqb x y
  | _, _ => false
  end.

(* ================================================================== *)
(** ** States *)

(** Modelled from the spec: the [States] enumeration (module "./States",
    which is not among the sources).  The spec describes bit flags
    [unstarted], [init], [will], [do], the outcome markers [did],
    [canceled], [failed] and an independent [finished] marker that is
    or-ed onto the outcome; the code compares them with [<] and [>] in
    this order and tests them with [&]. *)
Module States.
Definition unstarted : Z := 1.
Definition init : Z := 2.
Definition will : Z := 4.
Definition do : Z := 8.
Definition did : Z := 16.
Definition canceled : Z := 32.
Definition failed : Z := 64.
Definition finished : Z := 128.
End States.

Definition executingUnsettledStates : Z :=
  Z.lor (Z.lor (Z.lor States.unstarted States.init) States.will) States.do.

Definition rejectedStates : Z := Z.lor States.canceled States.failed.

Definition settledStates : Z := Z.lor States.did rejectedStates.

Definition MSG_STATE_EXECUTION_REENTRY : string :=
  "This method can not be called during execution.".
Definition MSG_STATE_EXECUTE : string :=
  "This method can not be called after the 'will' phase.".
Definition MSG_STATE_DONE : string :=
  "The `done` method can only be called while in the 'do' state.".
Definition MSG_STATE_REJECT : string :=
  "The `reject` method can only be called while in the 'init', 'will' or 'do' states.".

(* ================================================================== *)
(** ** The execution object *)

Inductive PromiseState : Type :=
| Pending
| Fulfilled (v : Value)
| Rejected (reason : Value).

Record Promise : Type := mkPromise {
  promise_ref : Ref;
  promise_state : PromiseState
}.

(** The object [{promise, resolve, reject}].  [resolve] and [reject] say
    whether the field holds the resolving function of [promise] (it is
    [null] when the promise was created already settled). *)
Module PromiseControl.
Record t : Type := mk {
  promise : Promise;
  resolve : bool;
  reject : bool
}.
End PromiseControl.

(** A thenable returned by [_onPhaseDo] or [_doDefault]; when and how it
    settles is decided by the environment. *)
Definition Thenable : Type := nat.

(** What [__executePhaseDo] returns for an asynchronous action. *)
Inductive DoPromise : Type :=
| HookPromise (t : Thenable)     (* the promise returned by [_doDefault] *)
| ThenDoDefault (t : Thenable).  (* [promise.then(__executePhaseDoDefaultAsync)] *)

(** The promise chain built by [__executeAsyncAction]. *)
Inductive Chain : Type :=
| Await (p : DoPromise)        (* waiting for the do phase to settle *)
| CatchQueued (reason : Value) (* [__rejectOrLog] reaction queued *)
| FinallyQueued                (* [boundFinally] reaction queued *)
| Completed.

(** How a call into the environment ends. *)
Inductive Outcome (A : Type) : Type :=
| Returns (a : A)
| Throws (ex : Value).

Arguments Returns {A} a.
Arguments Throws {A} ex.

Inductive Hook : Type :=
| HInit | HLock | HWill | HDo | HDoDefault | HFinally.

Inductive Warning : Type :=
| IgnoredAfterDone (reason : Value)
| IgnoredInFinally (ex : Value).

(** What an observer of the execution sees, most recent first: every write
    to [__state] (the value written), every entry into an overridable
    method, what [_validate] answered, every [logger.warn]. *)
Inductive Event : Type :=
| EvState (s : Z)
| EvEnter (h : Hook)
| EvValidated (answer : Outcome (option (list Value)))
| EvWarn (w : Warning).

Record Execution : Type := mkExecution {
  __state : Z;
  __isInside : bool;
  __result : Value;
  __error : Value;
  __promiseControl : option PromiseControl.t;
  allocated : nat;
  chains : list Chain;
  trace : list Event
}.

(** The constructor. *)
Definition new_Execution : Execution :=
  {| __state := States.unstarted;
     __isInside := false;
     __result := VUndefined;
     __error := VNull;
     __promiseControl := None;
     allocated := 0;
     chains := [];
     trace := [] |}.

Definition set_isInside (b : bool) (e : Execution) : Execution :=
  mkExecution (__state e) b (__result e) (__error e) (__promiseControl e)
              (allocated e) (chains e) (trace e).

Definition set_result (v : Value) (e : Execution) : Execution :=
  mkExecution (__state e) (__isInside e) v (__error e) (__promiseControl e)
              (allocated e) (chains e) (trace e).

Definition set_error (v : Value) (e : Execution) : Execution :=
  mkExecution (__state e) (__isInside e) (__result e) v (__promiseControl e)
              (allocated e) (chains e) (trace e).

Definition set_promiseControl (pc : option PromiseControl.t) (e : Execution)
  : Execution :=
  mkExecution (__state e) (__isInside e) (__result e) (__error e) pc
              (allocated e) (chains e) (trace e).

Definition set_allocated (n : nat) (e : Execution) : Execution :=
  mkExecution (__state e) (__isInside e) (__result e) (__error e)
              (__promiseControl e) n (chains e) (trace e).

Definition set_chains (cs : list Chain) (e : Execution) : Execution :=
  mkExecution (__state e) (__isInside e) (__result e) (__error e)
              (__promiseControl e) (allocated e) cs (trace e).

Definition log (ev : Event) (e : Execution) : Execution :=
  mkExecution (__state e) (__isInside e) (__result e) (__error e)
              (__promiseControl e) (allocated e) (chains e) (ev :: trace e).

(** [this.__state = s], recorded in the trace. *)
Definition set_state (s : Z) (e : Execution) : Execution :=
  mkExecution s (__isInside e) (__result e) (__error e) (__promiseControl e)
              (allocated e) (chains e) (EvState s :: trace e).

(** *** Getters *)

Definition state (e : Execution) : Z := __state e.
Definition result (e : Execution) : Value := __result e.
Definition error (e : Execution) : Value := __error e.

Definition isUnstarted (e : Execution) : bool :=
  __state e =? States.unstarted.
Definition isSettled (e : Execution) : bool :=
  negb (Z.land (__state e) settledStates =? 0).
Definition isRejected (e : Execution) : bool :=
  negb (Z.land (__state e) rejectedStates =? 0).
Definition isCanceled (e : Execution) : bool :=
  negb (Z.land (__state e) States.canceled =? 0).
Definition isFailed (e : Execution) : bool :=
  negb (Z.land (__state e) States.failed =? 0).
Definition isDone (e : Execution) : bool :=
  negb (Z.land (__state e) States.did =? 0).
Definition isFinished (e : Execution) : bool :=
  negb (Z.land (__state e) States.finished =? 0).
Definition isExecuting (e : Execution) : bool :=
  negb (isUnstarted e || isFinished e).

(* ================================================================== *)
(** ** The monad of methods *)

(** A method returns, throws, or (in the model only) stops because a
    nested call from an overridable method went deeper than the fuel. *)
Inductive Res (A : Type) : Type :=
| Normal (a : A)
| Thrown (ex : Value)
| OutOfFuel.

Arguments Normal {A} a.
Arguments Thrown {A} ex.
Arguments OutOfFuel {A}.

Definition M (A : Type) : Type := Execution -> Res A * Execution.

Definition ret {A} (a : A) : M A := fun e => (Normal a, e).

Definition throw {A} (ex : Value) : M A := fun e => (Thrown ex, e).

Definition out_of_fuel {A} : M A := fun e => (OutOfFuel, e).

Definition bind {A B} (m : M A) (k : A -> M B) : M B :=
  fun e =>
    match m e with
    | (Normal a, e') => k a e'
    | (Thrown ex, e') => (Thrown ex, e')
    | (OutOfFuel, e') => (OutOfFuel, e')
    end.

(** [try { m } catch(ex) { handler ex }]. *)
Definition try_catch {A} (m : M A) (handler : Value -> M A) : M A :=
  fun e =>
    match m e with
    | (Thrown ex, e') => handler ex e'
    | r => r
    end.

Definition get : M Execution := fun e => (Normal e, e).

Definition modify (f : Execution -> Execution) : M unit :=
  fun e => (Normal tt, f e).

Declare Scope js_scope.
Delimit Scope js_scope with js.
Notation "x <- m ;; k" := (bind m (fun x => k))
  (at level 61, m at next level, right associativity) : js_scope.
Notation "m ;; k" := (bind m (fun _ => k))
  (at level 61, right associativity) : js_scope.
Local Open Scope js_scope.

Definition when (b : bool) (m : M unit) : M unit :=
  if b then m else ret tt.

(** [new C(..)]: the next object identity. *)
Definition alloc : M Ref :=
  fun e => (Normal (Own (allocated e)), set_allocated (S (allocated e)) e).

(** Modelled from the spec: the error classes of [pentaho/lang], which are
    not among the sources.  [UserError] is the user-facing error;
    [OperationInvalidError] is the usage error and
    [ArgumentInvalidTypeError] the internal invalid-argument error,
    neither of them user-facing. *)
Definition new_UserError (message : string) : M Value :=
  r <- alloc ;;
  ret (VError (mkErrorObj r true false "UserError" [message])).

Definition new_OperationInvalidError (message : string) : M Value :=
  r <- alloc ;;
  ret (VError (mkErrorObj r false false "OperationInvalidError" [message])).

Definition new_ArgumentInvalidTypeError
  (name : string) (expected : list string) (actual : string) : M Value :=
  r <- alloc ;;
  ret (VError (mkErrorObj r false false "ArgumentInvalidTypeError"
                          (name :: expected ++ [actual]))).

(** The built-in [TypeError], thrown on reading a property of [undefined]
    or [null] and on calling [null]. *)
Definition new_TypeError (message : string) : M Value :=
  r <- alloc ;;
  ret (VError (mkErrorObj r false false "TypeError" [message])).

(* ================================================================== *)
(** ** Overridable methods *)

(** The public methods, as a caller or an overridable method invokes
    them.  [CPromise] reads the [promise] property. *)
Inductive Call : Type :=
| CExecute
| CExecuteWill
| CDone (result : Value)
| CReject (reason : Value)
| CPromise.

(** The body of an overridable method, as far as the execution can tell:
    it returns, throws, reads the execution, or calls a public method and
    goes on according to whether the call returned ([None]) or threw
    ([Some ex], which it may rethrow with [Throw ex]). *)
Inductive Script (A : Type) : Type :=
| Return (a : A)
| Throw (ex : Value)
| Observe (k : Execution -> Script A)
| Invoke (c : Call) (k : option Value -> Script A).

Arguments Return {A} a.
Arguments Throw {A} ex.
Arguments Observe {A} k.
Arguments Invoke {A} c k.

(** What the class of the execution and its environment fix:
    [isSync] is [this.action.constructor.isSync];
    [warnLevel] is [debugMgr.testLevel(DebugLevels.warn, module)];
    [_validate] is a query (by default [this.action.validate()]) whose
    answer may depend on everything that happened so far, [None] being
    [null]. *)
Record Config : Type := mkConfig {
  isSync : bool;
  warnLevel : bool;
  _validate : Execution -> Outcome (option (list Value));
  _onPhaseInit : Script unit;
  _onPhaseWill : Script unit;
  _onPhaseDo : Script (option Thenable);
  _doDefault : Script (option Thenable);
  _onPhaseFinally : Script unit
}.

(* ================================================================== *)
(** ** The methods of [Execution] *)

Section Engine.

Variable cfg : Config.

(** The public methods as the overridable methods reach them. *)
Variable nested : Call -> M unit.

Fixpoint run_script {A : Type} (s : Script A) : M A :=
  match s with
  | Return a => ret a
  | Throw ex => throw ex
  | Observe k => fun e => run_script (k e) e
  | Invoke c k =>
      fun e =>
        match nested c e with
        | (Normal _, e') => run_script (k None) e'
        | (Thrown ex, e') => run_script (k (Some ex)) e'
        | (OutOfFuel, e') => (OutOfFuel, e')
        end
  end.

Definition call_hook {A : Type} (h : Hook) (body : Script A) : M A :=
  modify (log (EvEnter h)) ;; run_script body.

Definition __assertStates (states : Z) (message : string) : M unit :=
  e <- get ;;
  if Z.land (__state e) states =? 0 then
    ex <- new_OperationInvalidError message ;; throw ex
  else ret tt.

(** *** promise *)

Definition __createPromiseControl : M PromiseControl.t :=
  e <- get ;;
  r <- alloc ;;
  if isFinished e then
    ret (PromiseControl.mk
           (mkPromise r (if isDone e then Fulfilled (result e)
                         else Rejected (error e)))
           false false)
  else
    ret (PromiseControl.mk (mkPromise r Pending) true true).

Definition __getPromiseControl : M PromiseControl.t :=
  e <- get ;;
  match __promiseControl e with
  | Some pc => ret pc
  | None =>
      pc <- __createPromiseControl ;;
      modify (set_promiseControl (Some pc)) ;;
      ret pc
  end.

Definition promise : M Promise :=
  pc <- __getPromiseControl ;;
  ret (PromiseControl.promise pc).

(** Settling a promise through one of its resolving functions: only a
    pending promise changes. *)
Definition settle (s : PromiseState) (pc : PromiseControl.t)
  : PromiseControl.t :=
  match promise_state (PromiseControl.promise pc) with
  | Pending =>
      PromiseControl.mk
        (mkPromise (promise_ref (PromiseControl.promise pc)) s)
        (PromiseControl.resolve pc) (PromiseControl.reject pc)
  | _ => pc
  end.

(** [promiseControl.resolve(v)] *)
Definition call_resolve (pc : PromiseControl.t) (v : Value) : M unit :=
  if PromiseControl.resolve pc then
    modify (set_promiseControl (Some (settle (Fulfilled v) pc)))
  else
    ex <- new_TypeError "promiseControl.resolve is not a function" ;;
    throw ex.

(** [promiseControl.reject(v)] *)
Definition call_reject (pc : PromiseControl.t) (v : Value) : M unit :=
  if PromiseControl.reject pc then
    modify (set_promiseControl (Some (settle (Rejected v) pc)))
  else
    ex <- new_TypeError "promiseControl.reject is not a function" ;;
    throw ex.

(** *** Execution control *)

Definition done (result : Value) : M unit :=
  __assertStates States.do MSG_STATE_DONE ;;
  modify (set_result result) ;;
  modify (set_state States.did).

Definition __reject (reason : Value) : M unit :=
  let reason := if negb (truthy reason) then VString "Canceled" else reason in
  classified <-
    match reason with
    | VString s =>
        r <- new_UserError s ;; ret (r, false)
    | VError err =>
        ret (reason,
             negb (instanceof_UserError err) || instanceof_RuntimeError err)
    | _ =>
        r <- new_ArgumentInvalidTypeError
               "reason" ["string"; "Error"]%string (typeof reason) ;;
        ret (r, true)
    end ;;
  let '(reason, isFail) := classified in
  modify (set_state (if (isFail : bool) then States.failed
                     else States.canceled)) ;;
  modify (set_error reason) ;;
  modify (set_result VUndefined).

Definition __rejectOrLog (reason : Value) : M unit :=
  e <- get ;;
  if negb (isSettled e) then __reject reason
  else if negb (truthy reason) || negb (strict_eq (error e) reason) then
    when (warnLevel cfg) (modify (log (EvWarn (IgnoredAfterDone reason))))
  else ret tt.

(** *** Phases *)

Definition __executePhaseInit : M unit :=
  e <- get ;;
  when (__state e <? States.init)
    (modify (set_state States.init) ;;
     call_hook HInit (_onPhaseInit cfg)).

Definition call_validate : M (option (list Value)) :=
  e <- get ;;
  let answer := _validate cfg e in
  modify (log (EvValidated answer)) ;;
  match answer with
  | Returns errors => ret errors
  | Throws ex => throw ex
  end.

(** [Object.freeze(this.action)] *)
Definition _lockAction : M unit := modify (log (EvEnter HLock)).

Definition __executePhaseWill : M unit :=
  e <- get ;;
  when (__state e <? States.will)
    (modify (set_state States.will) ;;
     errors <- call_validate ;;
     match errors with
     | None | Some [] =>
         _lockAction ;;
         call_hook HWill (_onPhaseWill cfg)
     | Some (first :: _) => __reject first
     end).

Definition __executePhaseDoDefaultAsync : M (option Thenable) :=
  e <- get ;;
  if negb (isSettled e) then
    promise <- call_hook HDoDefault (_doDefault cfg) ;;
    e' <- get ;;
    if negb (isSettled e') then ret promise else ret None
  else ret None.

Definition __executePhaseDo : M (option DoPromise) :=
  e <- get ;;
  if __state e <? States.do then
    modify (set_state States.do) ;;
    promise <- call_hook HDo (_onPhaseDo cfg) ;;
    if isSync cfg then
      e1 <- get ;;
      when (negb (isSettled e1))
        (_ <- call_hook HDoDefault (_doDefault cfg) ;; ret tt) ;;
      ret None
    else
      e1 <- get ;;
      match promise with
      | Some t =>
          if isSettled e1 then
            p <- __executePhaseDoDefaultAsync ;;
            ret (option_map HookPromise p)
          else ret (Some (ThenDoDefault t))
      | None =>
          p <- __executePhaseDoDefaultAsync ;;
          ret (option_map HookPromise p)
      end
  else ret None.

(** The [catch] block of the finally phase.  The logged message reads
    [ex.stack], which itself throws when [ex] is [undefined] or
    [null]. *)
Definition log_finally_error (ex : Value) : M unit :=
  when (warnLevel cfg)
    (match ex with
     | VUndefined | VNull =>
         te <- new_TypeError "Cannot read properties of undefined" ;;
         throw te
     | _ => modify (log (EvWarn (IgnoredInFinally ex)))
     end).

Definition __executePhaseFinally : M unit :=
  e <- get ;;
  when (__state e <? States.finished)
    (when (negb (isSettled e)) (done VUndefined) ;;
     try_catch (call_hook HFinally (_onPhaseFinally cfg)) log_finally_error ;;
     e1 <- get ;;
     modify (set_state (Z.lor (__state e1) States.finished)) ;;
     e2 <- get ;;
     match __promiseControl e2 with
     | Some promiseControl =>
         if isDone e2 then call_resolve promiseControl (result e2)
         else call_reject promiseControl (error e2)
     | None => ret tt
     end).

Definition reject (reason : Value) : M unit :=
  __assertStates executingUnsettledStates MSG_STATE_REJECT ;;
  e <- get ;;
  let wasExecuting := isExecuting e in
  __reject reason ;;
  when (negb wasExecuting) __executePhaseFinally.

(** *** Main *)

Definition __callInside {A : Type} (f : M A) : M A :=
  e <- get ;;
  if __isInside e then
    ex <- new_OperationInvalidError MSG_STATE_EXECUTION_REENTRY ;; throw ex
  else
    modify (set_isInside true) ;;
    r <- f ;;
    modify (set_isInside false) ;;
    ret r.

Definition __executeSyncAction : M unit :=
  try_catch
    (__executePhaseInit ;;
     __executePhaseWill ;;
     _ <- __executePhaseDo ;;
     ret tt)
    __rejectOrLog ;;
  __executePhaseFinally.

(** [(promiseFinished || Promise.resolve()).then(boundFinally, boundFinally)] *)
Definition schedule (c : Chain) : M unit :=
  modify (fun e => set_chains (chains e ++ [c]) e).

Definition __executeAsyncAction : M unit :=
  promiseFinished <-
    try_catch
      (__executePhaseInit ;;
       __executePhaseWill ;;
       p <- __executePhaseDo ;;
       ret (match p with
            | Some dp => Await dp
            | None => FinallyQueued
            end))
      (fun ex => __rejectOrLog ex ;; ret FinallyQueued) ;;
  schedule promiseFinished.

Definition execute : M unit :=
  e <- get ;;
  if __state e >? States.will then
    ex <- new_OperationInvalidError MSG_STATE_EXECUTE ;; throw ex
  else
    __callInside
      (if isSync cfg then __executeSyncAction else __executeAsyncAction).

Definition executeWill : M unit :=
  e <- get ;;
  if __state e >? States.will then
    ex <- new_OperationInvalidError MSG_STATE_EXECUTE ;; throw ex
  else
    __callInside
      (try_catch (__executePhaseInit ;; __executePhaseWill) __rejectOrLog).

Definition dispatch (c : Call) : M unit :=
  match c with
  | CExecute => execute
  | CExecuteWill => executeWill
  | CDone v => done v
  | CReject reason => reject reason
  | CPromise => _ <- promise ;; ret tt
  end.

(** *** Promise reactions of the asynchronous chain *)

Definition set_chain (i : nat) (c : Chain) : M unit :=
  modify (fun e =>
    set_chains (firstn i (chains e) ++ c :: skipn (S i) (chains e)) e).

(** The awaited promise of chain [i] settles: fulfilled ([None]) or
    rejected with a reason. *)
Definition on_settle (i : nat) (rejection : option Value) : M unit :=
  e <- get ;;
  match nth_error (chains e) i with
  | Some (Await p) =>
      match rejection, p with
      | Some reason, _ => set_chain i (CatchQueued reason)
      | None, HookPromise _ => set_chain i FinallyQueued
      | None, ThenDoDefault _ =>
          next <-
            try_catch
              (q <- __executePhaseDoDefaultAsync ;;
               ret (match q with
                    | Some t => Await (HookPromise t)
                    | None => FinallyQueued
                    end))
              (fun ex => ret (CatchQueued ex)) ;;
          set_chain i next
      end
  | _ => ret tt
  end.

(** The queued reaction of chain [i] runs. *)
Definition on_tick (i : nat) : M unit :=
  e <- get ;;
  match nth_error (chains e) i with
  | Some (CatchQueued reason) =>
      try_catch (__rejectOrLog reason) (fun _ => ret tt) ;;
      set_chain i FinallyQueued
  | Some FinallyQueued =>
      set_chain i Completed ;;
      __callInside __executePhaseFinally
  | _ => ret tt
  end.

End Engine.

(** The public methods with nested calls resolved: an overridable method
    that calls back into the execution reaches the same methods one level
    deeper. *)
Fixpoint api (cfg : Config) (fuel : nat) : Call -> M unit :=
  dispatch cfg
    (match fuel with
     | O => fun _ => out_of_fuel
     | S n => api cfg n
     end).

Definition nested_api (cfg : Config) (fuel : nat) : Call -> M unit :=
  match fuel with
  | O => fun _ => out_of_fuel
  | S n => api cfg n
  end.

(** What can happen to an execution from outside. *)
Inductive Op : Type :=
| Api (c : Call)
| Settle (i : nat) (rejection : option Value)
| Tick (i : nat).

Definition run_op (cfg : Config) (fuel : nat) (op : Op) : M unit :=
  match op with
  | Api c => api cfg fuel c
  | Settle i r => on_settle cfg (nested_api cfg fuel) i r
  | Tick i => on_tick cfg (nested_api cfg fuel) i
  end.

(** The executions that exist: a new one, and what an operation leaves
    behind, whether it returned or threw. *)
Inductive reachable (cfg : Config) : Execution -> Prop :=
| reach_new : reachable cfg new_Execution
| reach_step e op fuel :
    reachable cfg e ->
    reachable cfg (snd (run_op cfg (S fuel) op e)).

(* ================================================================== *)
(** ** Reading the trace *)

Definition hook_eqb (a b : Hook) : bool :=
  match a, b with
  | HInit, HInit | HLock, HLock | HWill, HWill
  | HDo, HDo | HDoDefault, HDoDefault | HFinally, HFinally => true
  | _, _ => false
  end.

(** How many times the overridable method [h] was entered. *)
Fixpoint enters (h : Hook) (t : list Event) : nat :=
  match t with
  | [] => O
  | EvEnter h' :: t' => ((if hook_eqb h h' then 1 else 0) + enters h t')%nat
  | _ :: t' => enters h t'
  end.

(** The values [__state] has held, the current one first and the
    initial one last. *)
Fixpoint history (t : list Event) : list Z :=
  match t with
  | [] => [States.unstarted]
  | EvState s :: t' => s :: history t'
  | _ :: t' => history t'
  end.

(** The answers of [_validate], most recent first. *)
Fixpoint validated (t : list Event)
  : list (Outcome (option (list Value))) :=
  match t with
  | [] => []
  | EvValidated a :: t' => a :: validated t'
  | _ :: t' => validated t'
  end.


(* ================================================================== *)
(** ** Invariants *)

(** The ten values [__state] ever holds. *)
Definition valid_state (s : Z) : Prop :=
  s = States.unstarted \/ s = States.init \/ s = States.will \/
  s = States.do \/ s = States.did \/ s = States.canceled \/
  s = States.failed \/ s = Z.lor States.did States.finished \/
  s = Z.lor States.canceled States.finished \/
  s = Z.lor States.failed States.finished.

Definition hist_ok (e : Execution) : Prop :=
  hd 0 (history (trace e)) = __state e /\
  Sorted Z.gt (history (trace e)).

(** What a promise of a finished execution is settled with. *)
Definition outcome_promise (e : Execution) : PromiseState :=
  if isDone e then Fulfilled (result e) else Rejected (error e).

Definition pending_control (r : Ref) : PromiseControl.t :=
  PromiseControl.mk (mkPromise r Pending) true true.

Definition pc_ok (e : Execution) : Prop :=
  forall pc, __promiseControl e = Some pc ->
    if isFinished e then
      promise_state (PromiseControl.promise pc) = outcome_promise e
    else
      pc = pending_control (promise_ref (PromiseControl.promise pc)).

(** Whether [__reject] classifies a reason as a failure. *)
Definition isFail_of (reason : Value) : bool :=
  match (if negb (truthy reason) then VString "Canceled" else reason) with
  | VString _ => false
  | VError err =>
      negb (instanceof_UserError err) || instanceof_RuntimeError err
  | _ => true
  end.

(** The execution stands rejected by the validation error [first]. *)
Definition validation_rejected (first : Value) (e : Execution) : Prop :=
  isRejected e = true /\
  isFailed e = isFail_of first /\
  isCanceled e = negb (isFail_of first) /\
  (forall err, first = VError err -> __error e = first) /\
  enters HDo (trace e) = O.

(** The overridable method [h] runs when [__state] reaches [k]: it
    was entered at most once, and not at all below [k]. *)
Definition count_ok (k : Z) (h : Hook) (e : Execution) : Prop :=
  (enters h (trace e) <= 1)%nat /\
  (__state e < k -> enters h (trace e) = O).

Definition validated_ok (e : Execution) : Prop :=
  (List.length (validated (trace e)) <= 1)%nat /\
  (__state e < States.will -> validated (trace e) = []) /\
  (forall first rest,
      validated (trace e) = [Returns (Some (first :: rest))] ->
      validation_rejected first e).

Definition chains_ok (e : Execution) : Prop :=
  (List.length (chains e) <= 1)%nat /\
  (__state e <= States.will -> chains e = []).

(** What holds of an execution at every moment. *)
Record Inv (e : Execution) : Prop := mkInv {
  inv_valid : valid_state (__state e);
  inv_hist : hist_ok e;
  inv_pc : pc_ok e;
  inv_init : count_ok States.init HInit e;
  inv_will : count_ok States.will HWill e;
  inv_do : count_ok States.do HDo e;
  inv_finally : count_ok States.did HFinally e;
  inv_validated : validated_ok e;
  inv_chains : chains_ok e
}.

(** How an execution can differ from an earlier one. *)
Record Evolves (e e' : Execution) : Prop := mkEvolves {
  evo_state : __state e <= __state e';
  evo_settled :
    isSettled e = true ->
    __result e' = __result e /\ __error e' = __error e /\
    (__state e' = __state e \/
     __state e' = Z.lor (__state e) States.finished);
  evo_promise :
    forall pc, __promiseControl e = Some pc ->
      exists pc', __promiseControl e' = Some pc' /\
        promise_ref (PromiseControl.promise pc') =
        promise_ref (PromiseControl.promise pc);
  evo_alloc : (allocated e <= allocated e')%nat;
  evo_trace : exists l, trace e' = l ++ trace e
}.

(** ... across the phases init, will and do, *)
Record PhaseExt (e e' : Execution) : Prop := mkPhaseExt {
  pext_evolves : Evolves e e';
  pext_inside : __isInside e' = __isInside e;
  pext_chains : chains e' = chains e;
  pext_finally : enters HFinally (trace e') = enters HFinally (trace e);
  pext_unfinished : __state e < States.finished -> __state e' < States.finished
}.

(** ... and across a public method called from an overridable one. *)
Record NestedExt (e e' : Execution) : Prop := mkNestedExt {
  next_phase : PhaseExt e e';
  next_enters : forall h, enters h (trace e') = enters h (trace e);
  next_validated : validated (trace e') = validated (trace e);
  next_step :
    __state e' = __state e \/
    (__state e = States.do /\ __state e' = States.did) \/
    (__state e < States.did /\ isRejected e' = true)
}.

(** The states in which overridable methods run. *)
Definition in_hook (e : Execution) : Prop :=
  __state e <> States.unstarted /\
  __state e < States.finished /\
  (__isInside e = true \/ States.will < __state e).

Definition is_error (v : Value) : Prop := exists err, v = VError err.

(** What a public method does when an overridable method calls it. *)
Definition nested_ok (nested : Call -> M unit) : Prop :=
  forall c e, Inv e -> in_hook e ->
    fst (nested c e) <> OutOfFuel /\
    (forall ex, fst (nested c e) = Thrown ex -> is_error ex) /\
    Inv (snd (nested c e)) /\
    in_hook (snd (nested c e)) /\
    NestedExt e (snd (nested c e)).

(* ================================================================== *)
(** ** Vocabulary of the proofs and of the properties *)

Definition OperationInvalidError (r : Ref) (message : string) : Value :=
  VError (mkErrorObj r false false "OperationInvalidError" [message]).

(** The counters [Inv] reads are unchanged. *)
Definition counts_same (e e' : Execution) : Prop :=
  enters HInit (trace e') = enters HInit (trace e) /\
  enters HWill (trace e') = enters HWill (trace e) /\
  enters HDo (trace e') = enters HDo (trace e) /\
  enters HFinally (trace e') = enters HFinally (trace e).

(** The error [__reject] records, when the next fresh identity is [n]. *)
Definition reject_error (reason : Value) (n : nat) : Value :=
  match (if negb (truthy reason) then VString "Canceled" else reason) with
  | VString s => VError (mkErrorObj (Own n) true false "UserError" [s])
  | VError err => VError err
  | v =>
      VError (mkErrorObj (Own n) false false "ArgumentInvalidTypeError"
                ("reason" :: ["string"; "Error"] ++ [typeof v])%string)
  end.

Definition reject_allocates (reason : Value) : bool :=
  match (if negb (truthy reason) then VString "Canceled" else reason) with
  | VError _ => false
  | _ => true
  end.

Definition rejected (reason : Value) (e : Execution) : Execution :=
  set_result VUndefined
    (set_error (reject_error reason (allocated e))
       (set_state (if isFail_of reason then States.failed else States.canceled)
          (if reject_allocates reason then set_allocated (S (allocated e)) e
           else e))).

Definition created_control (e : Execution) : PromiseControl.t :=
  if isFinished e then
    PromiseControl.mk (mkPromise (Own (allocated e)) (outcome_promise e))
      false false
  else pending_control (Own (allocated e)).

(** Whether [__rejectOrLog] finds something to warn about. *)
Definition is_other_reason (reason : Value) (e : Execution) : bool :=
  negb (truthy reason) || negb (strict_eq (error e) reason).

(** What a run of an overridable method leaves behind. *)
Definition hook_post {A} (e : Execution) (p : Res A * Execution) : Prop :=
  fst p <> OutOfFuel /\ Inv (snd p) /\ in_hook (snd p) /\ NestedExt e (snd p).

(** What a phase leaves behind: when it returns, the state has reached
    [k]. *)
Definition phase_post {A} (e : Execution) (k : Z) (p : Res A * Execution)
  : Prop :=
  fst p <> OutOfFuel /\ Inv (snd p) /\ PhaseExt e (snd p) /\
  (forall a, fst p = Normal a -> k <= __state (snd p)).

(** Entering the will phase: [_validate] has answered. *)
Definition validated_at (answer : Outcome (option (list Value)))
  (e : Execution) : Execution :=
  log (EvValidated answer) (set_state States.will e).

Definition is_invalid (answer : Outcome (option (list Value))) : Prop :=
  exists v0 rest, answer = Returns (Some (v0 :: rest)).

(** The execution marked finished, its promise (if any) settled. *)
Definition finished_of (e : Execution) : Execution :=
  let e' := set_state (Z.lor (__state e) States.finished) e in
  match __promiseControl e' with
  | Some pc => set_promiseControl (Some (settle (outcome_promise e') pc)) e'
  | None => e'
  end.

(** What the finally phase leaves behind. *)
Definition finally_post (threw : Prop) (e : Execution)
  (p : Res unit * Execution) : Prop :=
  fst p <> OutOfFuel /\ Inv (snd p) /\ Evolves e (snd p) /\
  __isInside (snd p) = __isInside e /\ chains (snd p) = chains e /\
  validated (trace (snd p)) = validated (trace e) /\
  (forall h, h <> HFinally -> enters h (trace (snd p)) = enters h (trace e)) /\
  (__state e < States.finished ->
   enters HFinally (trace (snd p)) = S (enters HFinally (trace e)) /\
   States.did <= __state (snd p)) /\
  (fst p = Normal tt -> States.finished <= __state (snd p)) /\
  (forall ex, fst p = Thrown ex ->
     is_error ex /\ __state (snd p) < States.finished /\ threw).

Definition nullish (v : Value) : Prop := v = VUndefined \/ v = VNull.

(** The finally phase only throws when warnings are logged and
    [_onPhaseFinally] threw [undefined] or [null]. *)
Definition finally_threw (cfg : Config) (nested : Call -> M unit) : Prop :=
  warnLevel cfg = true /\
  exists e1 ex e3,
    Inv e1 /\ in_hook e1 /\ nullish ex /\
    run_script nested (_onPhaseFinally cfg) e1 = (Thrown ex, e3).

(** A chain whose finally reaction has not run yet. *)
Definition active (c : Chain) : Prop := c <> Completed.

Record Top (e : Execution) : Prop := mkTop {
  top_inv : Inv e;
  top_chain :
    forall c, In c (chains e) -> active c -> enters HFinally (trace e) = O;
  top_outside : __state e <= States.will -> __isInside e = false
}.

Definition top_post {A} (e : Execution) (p : Res A * Execution) : Prop :=
  fst p <> OutOfFuel /\ Top (snd p) /\ Evolves e (snd p).

(** [e'] is what some operations make of [e]. *)
Inductive reaches (cfg : Config) (e : Execution) : Execution -> Prop :=
| reaches_refl : reaches cfg e e
| reaches_step e' op fuel :
    reaches cfg e e' ->
    reaches cfg e (snd (run_op cfg (S fuel) op e')).

(** A configuration whose overridable methods all do nothing. *)
Definition plain (sync : bool) : Config :=
  {| isSync := sync;
     warnLevel := true;
     _validate := fun _ => Returns None;
     _onPhaseInit := Return tt;
     _onPhaseWill := Return tt;
     _onPhaseDo := Return None;
     _doDefault := Return None;
     _onPhaseFinally := Return tt |}.

Definition run1 (cfg : Config) (op : Op) (e : Execution) : Execution :=
  snd (run_op cfg 1 op e).

(** How many of the outcome bits are set. *)
Definition outcome_count (e : Execution) : nat :=
  ((if isDone e then 1 else 0) + (if isCanceled e then 1 else 0) +
   (if isFailed e then 1 else 0))%nat.

(** A synchronous execution that ran to its end. *)
Definition executed : Execution :=
  run1 (plain true) (Api CExecute) new_Execution.

(** An action whose validation reports one plain [Error]. *)
Definition invalid_error : ErrorObj :=
  mkErrorObj (Ext 0) false false "Error" ["invalid"%string].

Definition invalid_action (sync : bool) : Config :=
  {| isSync := sync;
     warnLevel := true;
     _validate := fun _ => Returns (Some [VError invalid_error]);
     _onPhaseInit := Return tt;
     _onPhaseWill := Return tt;
     _onPhaseDo := Return None;
     _doDefault := Return None;
     _onPhaseFinally := Return tt |}.

Definition invalid_executed : Execution :=
  run1 (invalid_action true) (Api CExecute) new_Execution.

(** The same action taken up to the will phase only. *)
Definition invalid_willed : Execution :=
  run1 (invalid_action true) (Api CExecuteWill) new_Execution.





Definition throwing_finally (sync : bool) : Config :=
  {| isSync := sync;
     warnLevel := true;
     _validate := fun _ => Returns None;
     _onPhaseInit := Return tt;
     _onPhaseWill := Return tt;
     _onPhaseDo := Return None;
     _doDefault := Return None;
     _onPhaseFinally := Throw VUndefined |}.

(** The state in which each overridable method is called. *)
Definition hook_state (h : Hook) (s : Z) : Prop :=
  match h with
  | HInit => s = States.init
  | HLock | HWill => s = States.will
  | HDo | HDoDefault => s = States.do
  | HFinally =>
      s = States.did \/ s = States.canceled \/ s = States.failed
  end.

(** What the trace [t] shows when the overridable method [h] is entered:
    the state of its phase and the methods of the phases before.
    [_lockAction] directly follows a [_validate] that reported no error,
    [_onPhaseWill] directly follows [_lockAction]. *)
Definition entry_ok (h : Hook) (t : list Event) : Prop :=
  hook_state h (hd 0 (history t)) /\
  match h with
  | HInit | HFinally => True
  | HLock =>
      hd_error t = Some (EvValidated (Returns None)) \/
      hd_error t = Some (EvValidated (Returns (Some [])))
  | HWill => hd_error t = Some (EvEnter HLock) /\ (0 < enters HInit t)%nat
  | HDo => (0 < enters HWill t)%nat
  | HDoDefault => (0 < enters HDo t)%nat
  end.

(** Every call of an overridable method and of [_validate] in the trace
    was made in its place. *)
Fixpoint entries_ok (t : list Event) : Prop :=
  match t with
  | [] => True
  | EvEnter h :: t' => entry_ok h t' /\ entries_ok t'
  | EvValidated _ :: t' =>
      (hd 0 (history t') = States.will /\ (0 < enters HInit t')%nat) /\
      entries_ok t'
  | _ :: t' => entries_ok t'
  end.

(** What the getters [result] and [error] promise, and the order of the
    calls to overridable methods; it holds at every moment. *)
Record Contract (e : Execution) : Prop := mkContract {
  con_valid : valid_state (__state e);
  con_hist : hd 0 (history (trace e)) = __state e;
  con_result : isDone e = false -> __result e = VUndefined;
  con_error :
    if isRejected e then is_error (__error e) else __error e = VNull;
  con_chains : chains e <> [] -> States.do <= __state e;
  con_init : __state e = States.init -> (0 < enters HInit (trace e))%nat;
  con_do : __state e = States.do -> (0 < enters HDo (trace e))%nat;
  con_entries : entries_ok (trace e)
}.

(** In the state will, [_onPhaseWill] has been entered; it holds whenever
    [_validate] is not being asked. *)
Definition Willed (e : Execution) : Prop :=
  __state e = States.will -> (0 < enters HWill (trace e))%nat.

(** What a method leaves behind: the contract, a state that did not go
    back and, when it returns, has reached [k]. *)
Definition contract_post {A} (e : Execution) (k : Z) (p : Res A * Execution)
  : Prop :=
  Contract (snd p) /\ __state e <= __state (snd p) /\
  match fst p with
  | Normal _ => k <= __state (snd p) /\ Willed (snd p)
  | Thrown _ => True
  | OutOfFuel => Willed (snd p)
  end.

(** What a public method leaves behind, however it ends. *)
Definition kept_post {A} (e : Execution) (p : Res A * Execution) : Prop :=
  Contract (snd p) /\ __state e <= __state (snd p) /\ Willed (snd p).

Definition contract_kept (nested : Call -> M unit) : Prop :=
  forall c e, Contract e -> Willed e -> kept_post e (nested c e).

(** What a method leaves behind when it ends at [k] or above, whether it
    returns or throws. *)
Definition bound_post {A} (e : Execution) (k : Z) (p : Res A * Execution)
  : Prop :=
  Contract (snd p) /\ __state e <= __state (snd p) /\
  match fst p with
  | OutOfFuel => Willed (snd p)
  | _ => k <= __state (snd p)
  end.

(* ================================================================== *)
(** ** Proofs: basic facts *)


Lemma land_lor_finished s m :
  Z.land m States.finished = 0 ->
  Z.land (Z.lor s States.finished) m = Z.land s m.
Proof.
  intros H. rewrite Z.land_lor_distr_l.
  rewrite (Z.land_comm States.finished m), H. apply Z.lor_0_r.
Qed.

Lemma Evolves_refl e : Evolves e e.
Proof.
  constructor; intros; try lia; auto.
  - exists pc; auto.
  - exists []; auto.
Qed.

Lemma isSettled_lor_finished e e' :
  __state e' = Z.lor (__state e) States.finished ->
  isSettled e' = isSettled e.
Proof.
  unfold isSettled. intros ->. now rewrite land_lor_finished.
Qed.

Lemma Evolves_trans e1 e2 e3 : Evolves e1 e2 -> Evolves e2 e3 -> Evolves e1 e3.
Proof.
  intros [s1 t1 p1 a1 (l1 & x1)] [s2 t2 p2 a2 (l2 & x2)]. constructor.
  - lia.
  - intros H. destruct (t1 H) as (r1 & er1 & st1).
    assert (H2 : isSettled e2 = true).
    { destruct st1 as [E|E].
      - unfold isSettled in *. now rewrite E.
      - now rewrite (isSettled_lor_finished _ _ E). }
    destruct (t2 H2) as (r2 & er2 & st2).
    repeat split; try congruence.
    destruct st1 as [E1|E1], st2 as [E2|E2]; rewrite E2, E1; auto.
    right. now rewrite <- Z.lor_assoc, Z.lor_diag.
  - intros pc H. destruct (p1 pc H) as (pc' & H' & R').
    destruct (p2 pc' H') as (pc'' & H'' & R'').
    exists pc''. split; congruence.
  - lia.
  - exists (l2 ++ l1). rewrite x2, x1. apply app_assoc.
Qed.

Lemma isRejected_isSettled e : isRejected e = true -> isSettled e = true.
Proof.
  unfold isRejected, isSettled, settledStates.
  destruct (Z.eqb_spec (Z.land (__state e) rejectedStates) 0) as [E|E];
    [discriminate|]. intros _.
  destruct (Z.eqb_spec (Z.land (__state e) (Z.lor States.did rejectedStates)) 0)
    as [E'|E']; [|reflexivity].
  exfalso. apply E. rewrite Z.land_lor_distr_r in E'.
  apply Z.lor_eq_0_iff in E'. tauto.
Qed.

Lemma rejected_keeps e e' :
  Evolves e e' -> isRejected e = true ->
  isRejected e' = true /\ isFailed e' = isFailed e /\
  isCanceled e' = isCanceled e /\ __error e' = __error e.
Proof.
  intros [_ S _ _ _] R.
  destruct (S (isRejected_isSettled e R)) as (_ & E & [X|X]);
    unfold isRejected, isFailed, isCanceled in *;
    rewrite X; try rewrite !land_lor_finished by reflexivity; auto.
Qed.

Lemma PhaseExt_refl e : PhaseExt e e.
Proof. constructor; auto using Evolves_refl. Qed.

Lemma PhaseExt_trans e1 e2 e3 : PhaseExt e1 e2 -> PhaseExt e2 e3 -> PhaseExt e1 e3.
Proof.
  intros [a1 b1 c1 d1 f1] [a2 b2 c2 d2 f2].
  constructor; try congruence; eauto using Evolves_trans.
Qed.

Lemma NestedExt_refl e : NestedExt e e.
Proof. constructor; auto using PhaseExt_refl. Qed.

Lemma NestedExt_trans e1 e2 e3 : NestedExt e1 e2 -> NestedExt e2 e3 -> NestedExt e1 e3.
Proof.
  intros [a1 b1 c1 d1] [a2 b2 c2 d2].
  constructor; try congruence; eauto using PhaseExt_trans.
  destruct d1 as [d1|[(d1 & d1')|(d1 & d1')]].
  - rewrite <- d1. exact d2.
  - destruct d2 as [d2|[(d2 & d2')|(d2 & d2')]].
    + right; left. split; congruence.
    + rewrite d1' in d2. discriminate.
    + rewrite d1' in d2. discriminate.
  - right; right. split; auto.
    destruct a2 as [a2 _ _ _ _].
    destruct (rejected_keeps e2 e3 a2 d1') as (R & _). exact R.
Qed.

Ltac unfold_states :=
  unfold States.unstarted, States.init, States.will, States.do, States.did,
    States.canceled, States.failed, States.finished in *.

Ltac slia := unfold_states; lia.

(** Closed comparisons between state values. *)
Ltac zcomp := vm_compute; first [reflexivity | discriminate | intro; discriminate].

Ltac split_and := repeat match goal with |- _ /\ _ => split end.

Ltac unfold_monad :=
  unfold bind, ret, throw, out_of_fuel, try_catch, get, modify, when, alloc,
    new_UserError, new_OperationInvalidError, new_ArgumentInvalidTypeError,
    new_TypeError in *.

Lemma assertStates_pass states msg e :
  Z.land (__state e) states <> 0 ->
  __assertStates states msg e = (Normal tt, e).
Proof.
  intros H. unfold __assertStates. unfold_monad.
  destruct (Z.eqb_spec (Z.land (__state e) states) 0); [contradiction | reflexivity].
Qed.

Lemma assertStates_fail states msg e :
  Z.land (__state e) states = 0 ->
  __assertStates states msg e =
  (Thrown (OperationInvalidError (Own (allocated e)) msg),
   set_allocated (S (allocated e)) e).
Proof.
  intros H. unfold __assertStates. unfold_monad.
  rewrite H. reflexivity.
Qed.

Lemma valid_state_cases s :
  valid_state s ->
  s = 1 \/ s = 2 \/ s = 4 \/ s = 8 \/ s = 16 \/ s = 32 \/ s = 64 \/
  s = 144 \/ s = 160 \/ s = 192.
Proof. exact (fun H => H). Qed.

Ltac cases_state H :=
  apply valid_state_cases in H;
  destruct H as [H|[H|[H|[H|[H|[H|[H|[H|[H|H]]]]]]]]].

Lemma hist_ok_written s e e' :
  hist_ok e -> __state e < s ->
  __state e' = s -> trace e' = EvState s :: trace e ->
  hist_ok e'.
Proof.
  intros [Hhd Hs] Hlt Es Et. unfold hist_ok. rewrite Et, Es. split; simpl; auto.
  constructor; auto.
  destruct (history (trace e)) as [|a l]; simpl in *; constructor. lia.
Qed.

Lemma hist_ok_write s e :
  hist_ok e -> __state e < s -> hist_ok (set_state s e).
Proof. intros. now apply (hist_ok_written s e). Qed.

Lemma done_do v e :
  __state e = States.do ->
  done v e = (Normal tt, set_state States.did (set_result v e)).
Proof.
  intros H. unfold done. unfold_monad.
  rewrite assertStates_pass by (rewrite H; discriminate). reflexivity.
Qed.

Lemma done_not_do v e :
  valid_state (__state e) -> __state e <> States.do ->
  done v e =
  (Thrown (OperationInvalidError (Own (allocated e)) MSG_STATE_DONE),
   set_allocated (S (allocated e)) e).
Proof.
  intros H Hn. unfold done. unfold_monad.
  rewrite assertStates_fail; auto.
  cases_state H; rewrite H in *; try reflexivity. now elim Hn.
Qed.


(** Facts about the state values. *)
Lemma valid_unsettled s :
  valid_state s -> s < States.did ->
  s = States.unstarted \/ s = States.init \/ s = States.will \/ s = States.do.
Proof. intros H L. cases_state H; subst; auto; discriminate. Qed.

Lemma isSettled_iff e :
  valid_state (__state e) ->
  (isSettled e = true <-> States.did <= __state e).
Proof.
  intros H. unfold isSettled.
  cases_state H; rewrite H; split; intros; try discriminate; try reflexivity;
    exfalso; auto.
Qed.

Lemma isSettled_false_iff e :
  valid_state (__state e) ->
  (isSettled e = false <-> __state e < States.did).
Proof.
  intros H. unfold isSettled.
  cases_state H; rewrite H; split; intros; try discriminate; try reflexivity;
    exfalso; auto.
Qed.

Lemma isFinished_iff e :
  valid_state (__state e) ->
  (isFinished e = true <-> States.finished <= __state e).
Proof.
  intros H. unfold isFinished.
  cases_state H; rewrite H; split; intros; try discriminate; try reflexivity;
    exfalso; auto.
Qed.

Lemma isFinished_false_iff e :
  valid_state (__state e) ->
  (isFinished e = false <-> __state e < States.finished).
Proof.
  intros H. unfold isFinished.
  cases_state H; rewrite H; split; intros; try discriminate; try reflexivity;
    exfalso; auto.
Qed.

(** Predicates that only read some fields. *)
Lemma hist_ok_eq e e' :
  __state e' = __state e -> history (trace e') = history (trace e) ->
  hist_ok e -> hist_ok e'.
Proof. unfold hist_ok. intros -> ->. auto. Qed.

Lemma pc_ok_eq e e' :
  __state e' = __state e -> __result e' = __result e ->
  __error e' = __error e -> __promiseControl e' = __promiseControl e ->
  pc_ok e -> pc_ok e'.
Proof.
  unfold pc_ok, isFinished, outcome_promise, isDone, result, error.
  intros -> -> -> ->. auto.
Qed.

Lemma pc_ok_unfinished e e' :
  isFinished e = false -> isFinished e' = false ->
  __promiseControl e' = __promiseControl e ->
  pc_ok e -> pc_ok e'.
Proof.
  unfold pc_ok. intros F F' E H pc Hpc. rewrite F'.
  rewrite E in Hpc. specialize (H pc Hpc). now rewrite F in H.
Qed.

Lemma count_ok_mono k h e e' :
  __state e <= __state e' ->
  enters h (trace e') = enters h (trace e) ->
  count_ok k h e -> count_ok k h e'.
Proof. unfold count_ok. intros L ->. intuition lia. Qed.

Lemma count_ok_enter k h e e' :
  __state e < k -> k <= __state e' ->
  enters h (trace e') = S (enters h (trace e)) ->
  count_ok k h e -> count_ok k h e'.
Proof. unfold count_ok. intros L L' ->. intuition lia. Qed.

Lemma rejected_stable e e' :
  valid_state (__state e) -> Evolves e e' -> isRejected e = true ->
  isRejected e' = true /\ isFailed e' = isFailed e /\
  isCanceled e' = isCanceled e /\ __error e' = __error e.
Proof. intros _. apply rejected_keeps. Qed.

Lemma validated_ok_frame e e' :
  valid_state (__state e) -> Evolves e e' ->
  validated (trace e') = validated (trace e) ->
  enters HDo (trace e') = enters HDo (trace e) ->
  validated_ok e -> validated_ok e'.
Proof.
  intros V Ev Eq Ed (L & Z & R). pose proof (evo_state _ _ Ev) as Hle.
  unfold validated_ok. rewrite Eq. split; [|split]; auto.
  - intros. apply Z. slia.
  - intros v0 rest H. destruct (R _ _ H) as (a & b & c & d & f).
    destruct (rejected_stable e e' V Ev a) as (a' & b' & c' & d').
    unfold validation_rejected. rewrite b', c', d', Ed. auto.
Qed.

Lemma chains_ok_frame e e' :
  __state e <= __state e' -> chains e' = chains e ->
  chains_ok e -> chains_ok e'.
Proof.
  unfold chains_ok. intros L -> [A B]. split; auto.
  intros H. apply B. lia.
Qed.

Lemma counts_same_all e e' :
  (forall h, enters h (trace e') = enters h (trace e)) -> counts_same e e'.
Proof. intros H. repeat split; apply H. Qed.

Lemma counts_same_trace e e' : trace e' = trace e -> counts_same e e'.
Proof. intros H. unfold counts_same. rewrite H. auto. Qed.

Lemma Inv_frame e e' :
  Inv e -> Evolves e e' ->
  valid_state (__state e') -> hist_ok e' -> pc_ok e' ->
  counts_same e e' ->
  validated (trace e') = validated (trace e) ->
  chains e' = chains e ->
  Inv e'.
Proof.
  intros [] Ev V H P (E1 & E2 & E3 & E4) Va Ch.
  pose proof (evo_state _ _ Ev) as Hle.
  constructor; auto; try (apply (count_ok_mono _ _ e e'); now auto).
  - apply (validated_ok_frame e e'); auto.
  - apply (chains_ok_frame e e'); auto.
Qed.

(** *** Throwing leaves everything but the allocation counter *)

Lemma Evolves_alloc n e : (allocated e <= n)%nat -> Evolves e (set_allocated n e).
Proof.
  intros. constructor; simpl; auto; try lia.
  - intros pc Hpc. exists pc. auto.
  - exists []; auto.
Qed.

Lemma NestedExt_alloc n e :
  (allocated e <= n)%nat -> NestedExt e (set_allocated n e).
Proof.
  intros. constructor; auto. constructor; auto using Evolves_alloc.
Qed.

Lemma Inv_alloc n e : Inv e -> Inv (set_allocated n e).
Proof.
  intros []. constructor; auto.
Qed.

Lemma in_hook_alloc n e : in_hook e -> in_hook (set_allocated n e).
Proof. exact (fun H => H). Qed.

(** *** [done] *)

Lemma Evolves_unsettled e e' :
  valid_state (__state e) ->
  __state e < States.did -> __state e <= __state e' ->
  __promiseControl e' = __promiseControl e ->
  (allocated e <= allocated e')%nat ->
  (exists l, trace e' = l ++ trace e) ->
  Evolves e e'.
Proof.
  intros V L Le P A T. constructor; auto.
  - intros S. apply isSettled_iff in S; auto. lia.
  - intros pc Hpc. exists pc. rewrite P. auto.
Qed.

Lemma done_Inv v e :
  Inv e -> __state e = States.do ->
  Inv (set_state States.did (set_result v e)) /\
  NestedExt e (set_state States.did (set_result v e)).
Proof.
  intros I Hs.
  assert (Ev : Evolves e (set_state States.did (set_result v e))).
  { apply Evolves_unsettled; simpl; auto; try (rewrite Hs; slia);
      [apply I | now exists [EvState States.did]]. }
  split.
  - apply (Inv_frame e); auto; simpl; try (repeat split; fail).
    + unfold valid_state; auto 10.
    + apply (hist_ok_write States.did (set_result v e)).
      * apply (hist_ok_eq e); auto. apply I.
      * simpl. rewrite Hs. reflexivity.
    + apply (pc_ok_unfinished e); auto.
      * unfold isFinished. now rewrite Hs.
      * apply I.
  - constructor; auto.
    constructor; auto. simpl. reflexivity.
Qed.

(** *** [__reject] *)

Lemma __reject_eq reason e : __reject reason e = (Normal tt, rejected reason e).
Proof.
  unfold __reject, rejected, reject_error, reject_allocates, isFail_of.
  destruct reason as [| |[|]|n| |s|err|r]; simpl; try reflexivity.
  - destruct (n =? 0); reflexivity.
  - destruct (String.eqb s ""); reflexivity.
Qed.

Lemma rejected_state reason e :
  __state (rejected reason e) =
  (if isFail_of reason then States.failed else States.canceled).
Proof. reflexivity. Qed.

Lemma rejected_fields reason e :
  __isInside (rejected reason e) = __isInside e /\
  __promiseControl (rejected reason e) = __promiseControl e /\
  chains (rejected reason e) = chains e /\
  trace (rejected reason e) =
    EvState (if isFail_of reason then States.failed else States.canceled)
      :: trace e /\
  (allocated e <= allocated (rejected reason e))%nat /\
  __error (rejected reason e) = reject_error reason (allocated e) /\
  __result (rejected reason e) = VUndefined.
Proof.
  unfold rejected. destruct (reject_allocates reason); simpl; repeat split; auto.
Qed.

Lemma rejected_Inv reason e :
  Inv e -> __state e < States.did ->
  Inv (rejected reason e) /\ NestedExt e (rejected reason e).
Proof.
  intros I L.
  destruct (rejected_fields reason e) as (Fi & Fp & Fc & Ft & Fa & Fe & Fr).
  pose proof (rejected_state reason e) as Fs.
  assert (Lt : __state e < __state (rejected reason e)).
  { rewrite Fs. destruct (isFail_of reason); slia. }
  assert (Ev : Evolves e (rejected reason e)).
  { apply Evolves_unsettled; auto; try lia; [apply I|].
    rewrite Ft. now eexists [_]. }
  split.
  - apply (Inv_frame e); auto; try (rewrite Ft; reflexivity);
      try (unfold counts_same; rewrite Ft; repeat split; fail).
    + rewrite Fs. unfold valid_state. destruct (isFail_of reason); auto 10.
    + apply (hist_ok_written (__state (rejected reason e)) e); auto.
      apply I.
    + apply (pc_ok_unfinished e); auto.
      * apply isFinished_false_iff; [apply I | slia].
      * unfold isFinished. rewrite Fs. now destruct (isFail_of reason).
      * apply I.
  - constructor; [constructor|..]; auto; try (rewrite Ft; reflexivity).
    + intros _. rewrite Fs. destruct (isFail_of reason); reflexivity.
    + right; right. split; auto. unfold isRejected. rewrite Fs.
      destruct (isFail_of reason); reflexivity.
Qed.

(** *** Changes that no predicate reads *)

Lemma Evolves_same e e' :
  __state e' = __state e -> __result e' = __result e ->
  __error e' = __error e -> __promiseControl e' = __promiseControl e ->
  (allocated e <= allocated e')%nat ->
  (exists l, trace e' = l ++ trace e) ->
  Evolves e e'.
Proof.
  intros S R E P A T. constructor; auto; try lia.
  intros pc Hpc. exists pc. rewrite P. auto.
Qed.

Lemma NestedExt_same e e' :
  __state e' = __state e -> __result e' = __result e ->
  __error e' = __error e -> __promiseControl e' = __promiseControl e ->
  __isInside e' = __isInside e -> chains e' = chains e ->
  (forall h, enters h (trace e') = enters h (trace e)) ->
  validated (trace e') = validated (trace e) ->
  (allocated e <= allocated e')%nat ->
  (exists l, trace e' = l ++ trace e) ->
  NestedExt e e'.
Proof.
  intros S R E P I C En V A T.
  constructor; auto. constructor; auto using Evolves_same. lia.
Qed.

Lemma Inv_same e e' :
  __state e' = __state e -> __result e' = __result e ->
  __error e' = __error e -> __promiseControl e' = __promiseControl e ->
  chains e' = chains e ->
  counts_same e e' ->
  validated (trace e') = validated (trace e) ->
  history (trace e') = history (trace e) ->
  (allocated e <= allocated e')%nat ->
  (exists l, trace e' = l ++ trace e) ->
  Inv e -> Inv e'.
Proof.
  intros S R E P C En V H A T I.
  apply (Inv_frame e); auto.
  - apply Evolves_same; auto.
  - rewrite S. apply I.
  - apply (hist_ok_eq e); auto. apply I.
  - apply (pc_ok_eq e); auto. apply I.
Qed.

Lemma in_hook_same e e' :
  __state e' = __state e -> __isInside e' = __isInside e ->
  in_hook e -> in_hook e'.
Proof. unfold in_hook. intros -> ->. auto. Qed.

(** *** [promise] *)

Lemma getPromiseControl_some e pc :
  __promiseControl e = Some pc ->
  __getPromiseControl e = (Normal pc, e).
Proof. intros H. unfold __getPromiseControl. unfold_monad. now rewrite H. Qed.

Lemma getPromiseControl_none e :
  __promiseControl e = None ->
  __getPromiseControl e =
  (Normal (created_control e),
   set_promiseControl (Some (created_control e))
     (set_allocated (S (allocated e)) e)).
Proof.
  intros H. unfold __getPromiseControl, __createPromiseControl, created_control.
  unfold_monad. rewrite H. unfold isFinished, outcome_promise, isDone. simpl.
  destruct (negb (Z.land (__state e) States.finished =? 0)); reflexivity.
Qed.

Lemma getPromiseControl_spec e :
  Inv e ->
  exists pc,
    fst (__getPromiseControl e) = Normal pc /\
    __promiseControl (snd (__getPromiseControl e)) = Some pc /\
    (forall pc0, __promiseControl e = Some pc0 -> pc = pc0) /\
    Inv (snd (__getPromiseControl e)) /\
    NestedExt e (snd (__getPromiseControl e)) /\
    __state (snd (__getPromiseControl e)) = __state e /\
    __result (snd (__getPromiseControl e)) = __result e /\
    __error (snd (__getPromiseControl e)) = __error e /\
    trace (snd (__getPromiseControl e)) = trace e.
Proof.
  intros I. destruct (__promiseControl e) as [pc|] eqn:P.
  - rewrite (getPromiseControl_some e pc P). exists pc. simpl.
    split_and; auto using NestedExt_refl. congruence.
  - rewrite (getPromiseControl_none e P). exists (created_control e). simpl.
    split_and; auto.
    + discriminate.
    + apply (Inv_frame e); auto using counts_same_trace.
      * constructor; simpl; auto; try lia; [rewrite P; discriminate|].
        now exists [].
      * apply I.
      * apply (hist_ok_eq e); auto. apply I.
      * intros pc. simpl. intros [= <-]. unfold created_control.
        change (isFinished (set_promiseControl
                  (Some (if isFinished e then _ else _))
                  (set_allocated (S (allocated e)) e)))
          with (isFinished e).
        destruct (isFinished e); reflexivity.
    + constructor; auto. constructor; auto.
      constructor; simpl; auto; try lia; [rewrite P; discriminate|].
      now exists [].
Qed.

(** *** [__rejectOrLog] *)

Lemma Inv_log_warn w e : Inv e -> Inv (log (EvWarn w) e).
Proof. apply Inv_same; auto; [repeat split | now eexists [_]]. Qed.

Lemma NestedExt_log_warn w e : NestedExt e (log (EvWarn w) e).
Proof. apply NestedExt_same; auto. now eexists [_]. Qed.

Lemma rejectOrLog_unsettled cfg reason e :
  isSettled e = false ->
  __rejectOrLog cfg reason e = (Normal tt, rejected reason e).
Proof.
  intros H. unfold __rejectOrLog. unfold_monad. rewrite H. simpl.
  apply __reject_eq.
Qed.

Lemma rejectOrLog_settled cfg reason e :
  isSettled e = true ->
  __rejectOrLog cfg reason e =
  (Normal tt,
   if is_other_reason reason e && warnLevel cfg
   then log (EvWarn (IgnoredAfterDone reason)) e else e).
Proof.
  intros H. unfold __rejectOrLog, is_other_reason. unfold_monad. rewrite H. simpl.
  destruct (negb (truthy reason) || negb (strict_eq (error e) reason));
    destruct (warnLevel cfg); reflexivity.
Qed.

Lemma rejectOrLog_normal cfg reason e :
  __rejectOrLog cfg reason e = (Normal tt, snd (__rejectOrLog cfg reason e)).
Proof.
  destruct (isSettled e) eqn:S.
  - rewrite rejectOrLog_settled by auto. reflexivity.
  - rewrite rejectOrLog_unsettled by auto. reflexivity.
Qed.

Lemma rejectOrLog_spec cfg reason e :
  Inv e ->
  fst (__rejectOrLog cfg reason e) = Normal tt /\
  Inv (snd (__rejectOrLog cfg reason e)) /\
  NestedExt e (snd (__rejectOrLog cfg reason e)) /\
  States.did <= __state (snd (__rejectOrLog cfg reason e)).
Proof.
  intros I. destruct (isSettled e) eqn:S.
  - rewrite rejectOrLog_settled by auto. cbn [fst snd].
    apply isSettled_iff in S; [|apply I].
    destruct (is_other_reason reason e && warnLevel cfg);
      split_and; auto using Inv_log_warn, NestedExt_log_warn, NestedExt_refl.
  - rewrite rejectOrLog_unsettled by auto. cbn [fst snd].
    apply isSettled_false_iff in S; [|apply I].
    destruct (rejected_Inv reason e I S).
    split_and; auto. rewrite rejected_state. destruct (isFail_of reason); slia.
Qed.

(** *** The public methods, called from an overridable method *)

Lemma callInside_inside A (f : M A) e :
  __isInside e = true ->
  __callInside f e =
  (Thrown (OperationInvalidError (Own (allocated e)) MSG_STATE_EXECUTION_REENTRY),
   set_allocated (S (allocated e)) e).
Proof. intros H. unfold __callInside. unfold_monad. now rewrite H. Qed.

Lemma execute_in_hook cfg nested e :
  in_hook e ->
  exists msg,
    execute cfg nested e =
    (Thrown (OperationInvalidError (Own (allocated e)) msg),
     set_allocated (S (allocated e)) e).
Proof.
  intros (_ & _ & H). unfold execute.
  unfold bind at 1. unfold get at 1.
  destruct (Z.gtb_spec (__state e) States.will) as [G|G].
  - eexists. reflexivity.
  - destruct H as [H|H]; [|lia]. eexists. now apply callInside_inside.
Qed.

Lemma executeWill_in_hook cfg nested e :
  in_hook e ->
  exists msg,
    executeWill cfg nested e =
    (Thrown (OperationInvalidError (Own (allocated e)) msg),
     set_allocated (S (allocated e)) e).
Proof.
  intros (_ & _ & H). unfold executeWill.
  unfold bind at 1. unfold get at 1.
  destruct (Z.gtb_spec (__state e) States.will) as [G|G].
  - eexists. reflexivity.
  - destruct H as [H|H]; [|lia]. eexists. now apply callInside_inside.
Qed.

Lemma reject_executing cfg nested reason e :
  __state e = States.init \/ __state e = States.will \/ __state e = States.do ->
  reject cfg nested reason e = (Normal tt, rejected reason e).
Proof.
  intros H. unfold reject. unfold bind at 1.
  rewrite assertStates_pass by (destruct H as [H|[H|H]]; rewrite H; discriminate).
  unfold bind at 1. unfold get at 1. unfold bind at 1.
  rewrite __reject_eq.
  assert (X : isExecuting e = true)
    by (unfold isExecuting, isUnstarted, isFinished;
        destruct H as [H|[H|H]]; rewrite H; reflexivity).
  rewrite X. reflexivity.
Qed.

Lemma reject_settled cfg nested reason e :
  valid_state (__state e) -> States.did <= __state e ->
  reject cfg nested reason e =
  (Thrown (OperationInvalidError (Own (allocated e)) MSG_STATE_REJECT),
   set_allocated (S (allocated e)) e).
Proof.
  intros V H. unfold reject. unfold bind at 1.
  rewrite assertStates_fail; auto.
  cases_state V; rewrite V in *; try reflexivity; exfalso; slia.
Qed.

Lemma is_error_OperationInvalidError r msg :
  is_error (OperationInvalidError r msg).
Proof. eexists. reflexivity. Qed.

Lemma dispatch_nested_ok cfg nested : nested_ok (dispatch cfg nested).
Proof.
  intros c e I H.
  assert (Thr : forall msg (r : Res unit),
    r = Thrown (OperationInvalidError (Own (allocated e)) msg) ->
    r <> OutOfFuel /\
    (forall ex, r = Thrown ex -> is_error ex) /\
    Inv (set_allocated (S (allocated e)) e) /\
    in_hook (set_allocated (S (allocated e)) e) /\
    NestedExt e (set_allocated (S (allocated e)) e)).
  { intros msg r ->. split_and; auto using Inv_alloc, NestedExt_alloc.
    - discriminate.
    - intros ex [= <-]. apply is_error_OperationInvalidError. }
  destruct c as [| |v|reason|]; cbn [dispatch].
  - destruct (execute_in_hook cfg nested e H) as (msg & ->). cbn [fst snd]. eauto.
  - destruct (executeWill_in_hook cfg nested e H) as (msg & ->). cbn [fst snd]. eauto.
  - destruct (Z.eq_dec (__state e) States.do) as [E|E].
    + rewrite done_do by auto. cbn [fst snd].
      destruct (done_Inv v e I E). split_and; auto; try discriminate.
      destruct H as (A & B & C). unfold in_hook.
      cbn [__state __isInside set_state set_result]. split_and; try slia.
    + rewrite done_not_do by (auto; apply I). cbn [fst snd]. eauto.
  - destruct (Z_lt_le_dec (__state e) States.did) as [L|L].
    + destruct H as (A & B & C).
      assert (X : __state e = States.init \/ __state e = States.will \/
                  __state e = States.do).
      { destruct (valid_unsettled _ (inv_valid _ I) L) as [X|X]; tauto. }
      rewrite reject_executing by auto. cbn [fst snd].
      destruct (rejected_Inv reason e I L).
      split_and; auto; try discriminate.
      unfold in_hook. rewrite rejected_state.
      destruct (isFail_of reason); split_and; try slia; right; slia.
    + rewrite reject_settled by (auto; apply I). cbn [fst snd]. eauto.
  - unfold promise, bind, ret.
    destruct (getPromiseControl_spec e I) as (pc & R & P & _ & I' & N & St & _).
    destruct (__getPromiseControl e) as [r e']. cbn [fst snd] in *. subst r.
    cbn [fst snd]. split_and; auto; try discriminate.
    destruct N as [[_ Hi _ _ _] _ _].
    exact (in_hook_same e e' St Hi H).
Qed.


Lemma PhaseExt_unsettled e e' :
  valid_state (__state e) ->
  __state e < States.did -> __state e <= __state e' ->
  __state e' < States.finished ->
  __promiseControl e' = __promiseControl e ->
  __isInside e' = __isInside e -> chains e' = chains e ->
  enters HFinally (trace e') = enters HFinally (trace e) ->
  (allocated e <= allocated e')%nat ->
  (exists l, trace e' = l ++ trace e) ->
  PhaseExt e e'.
Proof.
  intros. constructor; auto using Evolves_unsettled.
Qed.

Lemma PhaseExt_same e e' :
  __state e' = __state e -> __result e' = __result e ->
  __error e' = __error e -> __promiseControl e' = __promiseControl e ->
  __isInside e' = __isInside e -> chains e' = chains e ->
  enters HFinally (trace e') = enters HFinally (trace e) ->
  (allocated e <= allocated e')%nat ->
  (exists l, trace e' = l ++ trace e) ->
  PhaseExt e e'.
Proof.
  intros S R E P I C En A T. constructor; auto using Evolves_same. lia.
Qed.

(** The trace only grows, here by a few events. *)
Ltac grown :=
  simpl;
  solve [ exists (@nil Event); reflexivity
        | eexists (cons _ nil); reflexivity
        | eexists (cons _ (cons _ nil)); reflexivity
        | eexists (cons _ (cons _ (cons _ nil))); reflexivity ].

Lemma NestedExt_PhaseExt e e' : NestedExt e e' -> PhaseExt e e'.
Proof. intros []. auto. Qed.

Lemma PhaseExt_state e e' : PhaseExt e e' -> __state e <= __state e'.
Proof. intros [[]]. auto. Qed.

Lemma NestedExt_state e e' : NestedExt e e' -> __state e <= __state e'.
Proof. intros [[[]]]. auto. Qed.

(** Entering the init phase. *)
Lemma Inv_enter_init e :
  Inv e -> __state e < States.init ->
  Inv (log (EvEnter HInit) (set_state States.init e)).
Proof.
  intros I L. set (e1 := log (EvEnter HInit) (set_state States.init e)).
  assert (Ev : Evolves e e1).
  { apply Evolves_unsettled; auto; try apply I; try grown; simpl; slia. }
  destruct I as
    [inv_valid inv_hist inv_pc inv_init inv_will inv_do inv_finally inv_validated inv_chains].
  constructor.
  - unfold valid_state; auto.
  - apply (hist_ok_written States.init e (set_state States.init e)) in inv_hist; auto.
  - apply (pc_ok_unfinished e); auto.
    apply isFinished_false_iff; auto. slia.
  - apply (count_ok_enter _ _ e); auto; simpl; slia.
  - apply (count_ok_mono _ _ e); auto. simpl. slia.
  - apply (count_ok_mono _ _ e); auto. simpl. slia.
  - apply (count_ok_mono _ _ e); auto. simpl. slia.
  - apply (validated_ok_frame e); auto.
  - apply (chains_ok_frame e); auto. simpl. slia.
Qed.

Lemma Inv_enter_do e :
  Inv e -> __state e < States.do ->
  Inv (log (EvEnter HDo) (set_state States.do e)).
Proof.
  intros I L. set (e1 := log (EvEnter HDo) (set_state States.do e)).
  assert (Ev : Evolves e e1).
  { apply Evolves_unsettled; auto; try apply I; try grown; simpl; slia. }
  destruct I as
    [inv_valid inv_hist inv_pc inv_init inv_will inv_do inv_finally inv_validated inv_chains].
  constructor.
  - unfold valid_state; auto.
  - apply (hist_ok_written States.do e (set_state States.do e)) in inv_hist; auto.
  - apply (pc_ok_unfinished e); auto.
    apply isFinished_false_iff; auto. slia.
  - apply (count_ok_mono _ _ e); auto. simpl. slia.
  - apply (count_ok_mono _ _ e); auto. simpl. slia.
  - apply (count_ok_enter _ _ e); auto; simpl; slia.
  - apply (count_ok_mono _ _ e); auto. simpl. slia.
  - destruct inv_validated as (A & B & C). split; [|split]; auto.
    + simpl. intros. slia.
    + simpl. intros v0 rest Hv. destruct (C _ _ Hv) as (R & _).
      exfalso. unfold isRejected in R.
      destruct (valid_unsettled _ inv_valid) as [X|[X|[X|X]]]; try slia;
        rewrite X in R; discriminate.
  - destruct inv_chains as (A & B). split; auto. simpl. intros. slia.
Qed.

Lemma hook_post_phase A e e1 k (p : Res A * Execution) :
  PhaseExt e e1 -> k <= __state e1 -> hook_post e1 p -> phase_post e k p.
Proof.
  intros P K (F & I & H & N). unfold phase_post. split_and; auto.
  - eapply PhaseExt_trans; eauto using NestedExt_PhaseExt.
  - apply NestedExt_state in N. intros. lia.
Qed.

Lemma phase_post_ret A e k (a : A) :
  Inv e -> k <= __state e -> phase_post e k (Normal a, e).
Proof.
  intros. unfold phase_post. split_and; auto using PhaseExt_refl. discriminate.
Qed.

Lemma phase_post_throw A e k ex :
  Inv e -> @phase_post A e k (Thrown ex, e).
Proof.
  intros. unfold phase_post. cbn [fst snd].
  split_and; auto using PhaseExt_refl; discriminate.
Qed.

Lemma phase_post_weaken A e e0 k k0 (p : Res A * Execution) :
  PhaseExt e0 e -> k0 <= k -> phase_post e k p -> phase_post e0 k0 p.
Proof.
  intros P K (F & I & X & B). unfold phase_post. split_and; auto.
  - eapply PhaseExt_trans; eauto.
  - intros a Ha. specialize (B a Ha). lia.
Qed.

Lemma phase_post_bind A B (m : M A) (f : A -> M B) e0 e k0 k :
  phase_post e0 k0 (m e) ->
  (forall a e1, Inv e1 -> PhaseExt e0 e1 -> k0 <= __state e1 ->
                phase_post e1 k (f a e1)) ->
  phase_post e0 k (bind m f e).
Proof.
  intros (F & I & P & K) H. unfold bind.
  destruct (m e) as [[a|ex|] e1]; cbn [fst snd] in *.
  - apply (phase_post_weaken _ e1 e0 k k); auto; try lia.
    apply H; eauto.
  - unfold phase_post. cbn [fst snd]. split_and; auto; discriminate.
  - contradiction.
Qed.

Lemma phase_post_catch A (m : M A) (h : Value -> M A) e0 e k0 k :
  phase_post e0 k0 (m e) -> k <= k0 ->
  (forall ex e1, Inv e1 -> PhaseExt e0 e1 -> phase_post e1 k (h ex e1)) ->
  phase_post e0 k (try_catch m h e).
Proof.
  intros (F & I & P & K) L H. unfold try_catch.
  destruct (m e) as [[a|ex|] e1]; cbn [fst snd] in *.
  - unfold phase_post. cbn [fst snd]. split_and; auto; try discriminate.
    intros a0 _. specialize (K a eq_refl). lia.
  - apply (phase_post_weaken _ e1 e0 k k); auto; try lia.
  - contradiction.
Qed.

Lemma bind_get A (f : Execution -> M A) e : bind get f e = f e e.
Proof. reflexivity. Qed.

Lemma bind_modify A g (f : unit -> M A) e : bind (modify g) f e = f tt (g e).
Proof. reflexivity. Qed.

Lemma bind_ret A B (a : A) (f : A -> M B) e : bind (ret a) f e = f a e.
Proof. reflexivity. Qed.

Lemma Inv_validated answer e :
  Inv e -> __state e < States.will -> ~ is_invalid answer ->
  Inv (validated_at answer e).
Proof.
  intros I L NI. unfold validated_at.
  set (e1 := log (EvValidated answer) (set_state States.will e)).
  assert (Ev : Evolves e e1).
  { apply Evolves_unsettled; auto; try apply I; try grown; simpl; slia. }
  destruct I as
    [inv_valid inv_hist inv_pc inv_init inv_will inv_do inv_finally inv_validated inv_chains].
  constructor.
  - unfold valid_state; auto.
  - apply (hist_ok_written States.will e (set_state States.will e)) in inv_hist; auto.
  - apply (pc_ok_unfinished e); auto.
    apply isFinished_false_iff; auto. slia.
  - apply (count_ok_mono _ _ e); auto. simpl. slia.
  - destruct inv_will as [A B]. split; simpl; auto.
  - apply (count_ok_mono _ _ e); auto. simpl. slia.
  - apply (count_ok_mono _ _ e); auto. simpl. slia.
  - destruct inv_validated as (A & B & C). unfold validated_ok, e1. simpl.
    rewrite (B L). split; [|split]; simpl; auto.
    + intros; slia.
    + intros v0 rest [= ->]. exfalso. apply NI. eexists; eauto.
  - destruct inv_chains as (A & B). split; auto. simpl. intros _.
    apply B. slia.
Qed.

Lemma Inv_enter_will answer e :
  Inv e -> __state e < States.will -> ~ is_invalid answer ->
  Inv (log (EvEnter HWill) (log (EvEnter HLock) (validated_at answer e))).
Proof.
  intros I L NI. pose proof (Inv_validated answer e I L NI) as I1.
  assert (Z : enters HWill (trace e) = O) by (apply I; auto).
  destruct I1 as
    [inv_valid inv_hist inv_pc inv_init inv_will inv_do inv_finally inv_validated inv_chains].
  constructor;
    [ exact inv_valid | exact inv_hist | exact inv_pc | exact inv_init |
    | exact inv_do | exact inv_finally | exact inv_validated
    | exact inv_chains ].
  split; simpl.
  - rewrite Z. auto.
  - intros; slia.
Qed.

Lemma Inv_validation_rejected v0 rest e :
  Inv e -> __state e < States.will ->
  Inv (rejected v0 (validated_at (Returns (Some (v0 :: rest))) e)).
Proof.
  intros I L.
  set (e1 := validated_at (Returns (Some (v0 :: rest))) e).
  set (e2 := rejected v0 e1).
  destruct (rejected_fields v0 e1) as (Fi & Fp & Fc & Ft & Fa & Fe & Fr).
  pose proof (rejected_state v0 e1) as Fs. fold e2 in Fi, Fp, Fc, Ft, Fa, Fe, Fr, Fs.
  assert (S2 : __state e2 = States.canceled \/ __state e2 = States.failed).
  { rewrite Fs. destruct (isFail_of v0); auto. }
  assert (Ev : Evolves e e2).
  { apply Evolves_unsettled; auto; try apply I; try slia.
    rewrite Ft. simpl. now eexists [_; _; _]. }
  assert (Hd : enters HDo (trace e) = O) by (apply I; slia).
  assert (Hv : validated (trace e) = []) by (apply I; auto).
  destruct I as
    [inv_valid inv_hist inv_pc inv_init inv_will inv_do inv_finally inv_validated inv_chains].
  constructor.
  - unfold valid_state. destruct S2 as [X|X]; rewrite X; auto 10.
  - apply (hist_ok_written (__state e2) e1); auto.
    + apply (hist_ok_written States.will e (set_state States.will e)) in inv_hist; auto.
    + destruct S2 as [X|X]; rewrite X; reflexivity.
  - apply (pc_ok_unfinished e); auto.
    + apply isFinished_false_iff; auto. slia.
    + unfold isFinished. destruct S2 as [X|X]; rewrite X; reflexivity.
  - apply (count_ok_mono _ _ e); auto. apply Ev. rewrite Ft. reflexivity.
  - apply (count_ok_mono _ _ e); auto. apply Ev. rewrite Ft. reflexivity.
  - apply (count_ok_mono _ _ e); auto. apply Ev. rewrite Ft. reflexivity.
  - apply (count_ok_mono _ _ e); auto. apply Ev. rewrite Ft. reflexivity.
  - unfold validated_ok. rewrite Ft. simpl. rewrite Hv. split; [|split]; auto.
    + intros. destruct S2 as [X|X]; rewrite X in *; slia.
    + intros v1 rest1 [= <- <-].
      unfold validation_rejected, isRejected, isFailed, isCanceled.
      rewrite Fs, Fe, Ft. simpl. rewrite Hd.
      destruct (isFail_of v0) eqn:Fl; split_and; auto.
      * intros err ->. reflexivity.
      * intros err ->. reflexivity.
  - apply (chains_ok_frame e); auto. apply Ev.
Qed.

(** *** The end of the finally phase *)

Lemma finished_of_fields e :
  __state (finished_of e) = Z.lor (__state e) States.finished /\
  __isInside (finished_of e) = __isInside e /\
  __result (finished_of e) = __result e /\
  __error (finished_of e) = __error e /\
  chains (finished_of e) = chains e /\
  allocated (finished_of e) = allocated e /\
  trace (finished_of e) =
    EvState (Z.lor (__state e) States.finished) :: trace e.
Proof.
  unfold finished_of. simpl. destruct (__promiseControl e); simpl; auto 10.
Qed.

Lemma settled_unfinished s :
  valid_state s -> States.did <= s < States.finished ->
  s = States.did \/ s = States.canceled \/ s = States.failed.
Proof. intros V L. cases_state V; auto; exfalso; slia. Qed.

Lemma Inv_finished_of e :
  Inv e -> States.did <= __state e < States.finished ->
  Inv (finished_of e) /\ Evolves e (finished_of e).
Proof.
  intros I L.
  destruct (finished_of_fields e) as (Fs & Fi & Fr & Fe & Fc & Fa & Ft).
  pose proof (settled_unfinished _ (inv_valid _ I) L) as S3.
  assert (Ev : Evolves e (finished_of e)).
  { constructor; auto; try lia.
    - rewrite Fs. destruct S3 as [X|[X|X]]; rewrite X; zcomp.
    - intros pc Hpc. unfold finished_of. simpl. rewrite Hpc. simpl.
      eexists. split; [reflexivity|].
      unfold settle. destruct (promise_state (PromiseControl.promise pc)); reflexivity.
    - rewrite Ft. now eexists [_]. }
  split; auto.
  apply (Inv_frame e); auto.
  - rewrite Fs. unfold valid_state.
    destruct S3 as [X|[X|X]]; rewrite X; auto 10.
  - apply (hist_ok_written (__state (finished_of e)) e); auto.
    + apply I.
    + rewrite Fs. destruct S3 as [X|[X|X]]; rewrite X; zcomp.
    + rewrite Ft, Fs. reflexivity.
  - intros pc Hpc.
    assert (Fin : isFinished (finished_of e) = true).
    { unfold isFinished. rewrite Fs.
      destruct S3 as [X|[X|X]]; rewrite X; reflexivity. }
    rewrite Fin. revert Hpc. unfold finished_of. simpl.
    destruct (__promiseControl e) as [pc0|] eqn:P; simpl;
      [|intro X; rewrite P in X; discriminate X].
    intros [= <-].
    pose proof (inv_pc _ I pc0 P) as Hp.
    assert (NF : isFinished e = false)
      by (apply isFinished_false_iff; [apply I | lia]).
    rewrite NF in Hp. rewrite Hp. reflexivity.
  - unfold counts_same. rewrite Ft. repeat split.
  - rewrite Ft. reflexivity.
Qed.

Lemma Inv_enter_finally e :
  Inv e -> States.did <= __state e -> enters HFinally (trace e) = O ->
  Inv (log (EvEnter HFinally) e).
Proof.
  intros I L Z. destruct I as
    [inv_valid inv_hist inv_pc inv_init inv_will inv_do inv_finally inv_validated inv_chains].
  constructor;
    [ exact inv_valid | exact inv_hist | exact inv_pc | exact inv_init
    | exact inv_will | exact inv_do | | exact inv_validated
    | exact inv_chains ].
  split; simpl.
  - rewrite Z. auto.
  - intros. lia.
Qed.

Lemma enters_other h h' t :
  h <> h' -> enters h (EvEnter h' :: t) = enters h t.
Proof. intros N. simpl. destruct h, h'; simpl; auto; congruence. Qed.

Lemma finally_assemble (threw : Prop) e e1 e4 :
  Inv e -> __state e < States.finished ->
  NestedExt e e1 -> States.did <= __state e1 ->
  NestedExt (log (EvEnter HFinally) e1) e4 -> Inv e4 ->
  finally_post threw e (Normal tt, finished_of e4) /\
  (forall te n, (allocated e4 <= n)%nat -> threw ->
     finally_post threw e (Thrown (VError te), set_allocated n e4)).
Proof.
  intros I L N1 L1 N4 I4.
  destruct N1 as [[Ev1 In1 Ch1 Fi1 Un1] En1 Va1 _].
  destruct N4 as [[Ev4 In4 Ch4 Fi4 Un4] En4 Va4 _].
  simpl in *.
  specialize (Un1 L). specialize (Un4 Un1).
  assert (L4 : States.did <= __state e4) by (apply evo_state in Ev4; simpl in Ev4; lia).
  assert (Ev : Evolves e e4).
  { apply (Evolves_trans _ e1); auto.
    apply (Evolves_trans _ (log (EvEnter HFinally) e1)); auto.
    apply Evolves_same; auto. grown. }
  assert (Oth : forall h, h <> HFinally -> enters h (trace e4) = enters h (trace e)).
  { intros h Hh. rewrite En4. simpl. rewrite <- En1.
    destruct h; simpl; auto; congruence. }
  assert (Fin : enters HFinally (trace e4) = S (enters HFinally (trace e))).
  { rewrite En4. simpl. now rewrite En1. }
  destruct (Inv_finished_of e4 I4 (conj L4 Un4)) as (I5 & Ev5).
  destruct (finished_of_fields e4) as (Fs & Fi & Fr & Fe & Fc & Fa & Ft).
  split.
  - unfold finally_post. cbn [fst snd]. split_and; try discriminate; auto.
    + eapply Evolves_trans; eauto.
    + congruence.
    + congruence.
    + rewrite Ft. simpl. congruence.
    + intros h Hh. rewrite Ft. simpl. auto.
    + intros _. split.
      * rewrite Ft. simpl. auto.
      * apply evo_state in Ev5. lia.
    + intros _. rewrite Fs.
      destruct (settled_unfinished _ (inv_valid _ I4) (conj L4 Un4)) as [X|[X|X]];
        rewrite X; zcomp.
  - intros te n Hn Th. unfold finally_post. cbn [fst snd].
    split_and; try discriminate; auto using Inv_alloc; try (simpl; congruence).
    + eapply Evolves_trans; eauto using Evolves_alloc.
    + intros ex [= <-]. split_and; [eexists; reflexivity | exact Un4 | exact Th].
Qed.

Section Phases.

Variable cfg : Config.
Variable nested : Call -> M unit.
Hypothesis Hnested : nested_ok nested.

Lemma run_script_spec A (s : Script A) :
  forall e, Inv e -> in_hook e -> hook_post e (run_script nested s e).
Proof.
  unfold hook_post.
  induction s as [a|ex|k IH|c k IH]; intros e I H; cbn [run_script].
  - unfold ret; cbn [fst snd]. split_and; auto using NestedExt_refl. discriminate.
  - unfold throw; cbn [fst snd]. split_and; auto using NestedExt_refl. discriminate.
  - apply IH; auto.
  - destruct (Hnested c e I H) as (F & _ & I' & H' & N).
    destruct (nested c e) as [[a|ex|] e1]; cbn [fst snd] in *.
    + destruct (IH None e1 I' H') as (F1 & I1 & H1 & N1).
      split_and; eauto using NestedExt_trans.
    + destruct (IH (Some ex) e1 I' H') as (F1 & I1 & H1 & N1).
      split_and; eauto using NestedExt_trans.
    + contradiction.
Qed.

Lemma call_hook_spec A h (body : Script A) e :
  Inv (log (EvEnter h) e) -> in_hook e ->
  hook_post (log (EvEnter h) e) (call_hook nested h body e).
Proof.
  intros I H. unfold call_hook. unfold_monad.
  apply run_script_spec; auto.
Qed.

Lemma executePhaseInit_spec e :
  Inv e -> __isInside e = true ->
  phase_post e States.init (__executePhaseInit cfg nested e).
Proof.
  intros I Hin. unfold __executePhaseInit, bind, get, when, modify.
  destruct (Z.ltb_spec (__state e) States.init) as [L|L].
  - pose proof (Inv_enter_init e I L) as I1.
    apply (hook_post_phase _ _ (log (EvEnter HInit) (set_state States.init e))).
    + apply PhaseExt_unsettled; auto; try apply I; try grown; simpl; slia.
    + simpl. slia.
    + apply call_hook_spec; auto.
      unfold in_hook. simpl. split_and; auto; slia.
  - apply phase_post_ret; auto.
Qed.

Lemma executePhaseWill_skip e :
  States.will <= __state e ->
  __executePhaseWill cfg nested e = (Normal tt, e).
Proof.
  intros L. unfold __executePhaseWill, bind, get, when.
  destruct (Z.ltb_spec (__state e) States.will); [lia | reflexivity].
Qed.

Lemma executePhaseWill_eq e :
  __state e < States.will ->
  __executePhaseWill cfg nested e =
  match _validate cfg (set_state States.will e) with
  | Returns (Some (v0 :: rest)) =>
      (Normal tt, rejected v0 (validated_at (Returns (Some (v0 :: rest))) e))
  | Throws ex => (Thrown ex, validated_at (Throws ex) e)
  | Returns a =>
      call_hook nested HWill (_onPhaseWill cfg)
        (log (EvEnter HLock) (validated_at (Returns a) e))
  end.
Proof.
  intros L. unfold __executePhaseWill, call_validate, _lockAction, when.
  unfold bind, get, modify, ret, throw.
  destruct (Z.ltb_spec (__state e) States.will); [|lia].
  cbn [fst snd]. unfold validated_at.
  destruct (_validate cfg (set_state States.will e)) as [[[|v0 rest]|]|ex];
    try reflexivity.
  rewrite __reject_eq. reflexivity.
Qed.

Lemma executePhaseWill_spec e :
  Inv e -> __isInside e = true ->
  phase_post e States.will (__executePhaseWill cfg nested e).
Proof.
  intros I Hin.
  destruct (Z_lt_le_dec (__state e) States.will) as [L|L];
    [|rewrite executePhaseWill_skip by auto; apply phase_post_ret; auto].
  rewrite executePhaseWill_eq by auto.
  set (answer := _validate cfg (set_state States.will e)).
  assert (P1 : forall a, PhaseExt e (validated_at a e)).
  { intros a. apply PhaseExt_unsettled; auto; try apply I; try grown; simpl; slia. }
  assert (Valid : forall a, ~ is_invalid a ->
    phase_post e States.will
      (call_hook nested HWill (_onPhaseWill cfg)
         (log (EvEnter HLock) (validated_at a e)))).
  { intros a NI.
    apply (hook_post_phase _ _
             (log (EvEnter HWill) (log (EvEnter HLock) (validated_at a e)))).
    - apply (PhaseExt_trans _ (validated_at a e)); auto.
      apply PhaseExt_same; auto. grown.
    - simpl. slia.
    - apply call_hook_spec.
      + apply Inv_enter_will; auto.
      + unfold in_hook. simpl. split_and; auto; slia. }
  destruct answer as [[[|v0 rest]|]|ex].
  - apply Valid. intros (v & r & [=]).
  - unfold phase_post. cbn [fst snd]. split_and; try discriminate.
    + apply Inv_validation_rejected; auto.
    + apply (PhaseExt_trans _ (validated_at (Returns (Some (v0 :: rest))) e)); auto.
      apply PhaseExt_unsettled; auto; try reflexivity.
      * simpl. unfold valid_state. auto.
      * rewrite rejected_state. destruct (isFail_of v0); simpl; slia.
      * rewrite rejected_state. destruct (isFail_of v0); simpl; slia.
      * apply rejected_fields.
      * apply rejected_fields.
      * apply rejected_fields.
      * destruct (rejected_fields v0 (validated_at (Returns (Some (v0 :: rest))) e))
          as (_ & _ & _ & Ft & _). rewrite Ft. reflexivity.
      * apply rejected_fields.
      * destruct (rejected_fields v0 (validated_at (Returns (Some (v0 :: rest))) e))
          as (_ & _ & _ & Ft & _). rewrite Ft. now eexists [_].
    + intros _ _. rewrite rejected_state. destruct (isFail_of v0); slia.
  - apply Valid. intros (v & r & [=]).
  - apply phase_post_weaken with (e := validated_at (Throws ex) e) (k := States.will);
      auto; try lia.
    apply phase_post_throw. apply Inv_validated; auto. intros (v & r & [=]).
Qed.

Lemma call_default_spec e :
  Inv e -> States.do <= __state e -> isSettled e = false ->
  phase_post e States.do (call_hook nested HDoDefault (_doDefault cfg) e).
Proof.
  intros I L S. apply isSettled_false_iff in S; [|apply I].
  apply (hook_post_phase _ _ (log (EvEnter HDoDefault) e)); auto.
  - apply PhaseExt_same; auto. grown.
  - apply call_hook_spec.
    + revert I. apply Inv_same; auto; try grown; repeat split.
    + unfold in_hook. split_and; slia.
Qed.

Lemma executePhaseDoDefaultAsync_spec e :
  Inv e -> States.do <= __state e ->
  phase_post e States.do (__executePhaseDoDefaultAsync cfg nested e).
Proof.
  intros I L. unfold __executePhaseDoDefaultAsync. rewrite bind_get.
  destruct (isSettled e) eqn:S; cbn [negb]; [apply phase_post_ret; auto|].
  apply phase_post_bind with (k0 := States.do).
  - apply call_default_spec; auto.
  - intros a e1 I1 P1 L1. rewrite bind_get.
    destruct (isSettled e1); apply phase_post_ret; auto.
Qed.

Lemma executePhaseDo_spec e :
  Inv e ->
  phase_post e States.do (__executePhaseDo cfg nested e).
Proof.
  intros I. unfold __executePhaseDo. rewrite bind_get.
  destruct (Z.ltb_spec (__state e) States.do) as [L|L];
    [|apply phase_post_ret; auto].
  rewrite bind_modify.
  apply phase_post_bind with (k0 := States.do).
  - apply (hook_post_phase _ _ (log (EvEnter HDo) (set_state States.do e))).
    + apply PhaseExt_unsettled; auto; try apply I; try grown; simpl; slia.
    + simpl. slia.
    + apply call_hook_spec.
      * apply Inv_enter_do; auto.
      * unfold in_hook. simpl. split_and; slia.
  - intros promise e1 I1 P1 L1.
    destruct (isSync cfg).
    + rewrite bind_get. apply phase_post_bind with (k0 := States.do).
      * unfold when. destruct (isSettled e1) eqn:S; cbn [negb];
          [apply phase_post_ret; auto|].
        apply phase_post_bind with (k0 := States.do).
        -- apply call_default_spec; auto.
        -- intros. apply phase_post_ret; auto.
      * intros. apply phase_post_ret; auto.
    + rewrite bind_get.
      assert (D : phase_post e1 States.do
                ((p <- __executePhaseDoDefaultAsync cfg nested;;
                  ret (option_map HookPromise p)) e1)).
      { apply phase_post_bind with (k0 := States.do).
        - apply executePhaseDoDefaultAsync_spec; auto.
        - intros. apply phase_post_ret; auto. }
      destruct promise as [t|]; auto.
      destruct (isSettled e1); auto. apply phase_post_ret; auto.
Qed.

(** The statements after the [try] of the finally phase. *)
Lemma finish_tail_eq e :
  pc_ok e -> isFinished e = false ->
  (e1 <- get ;;
   modify (set_state (Z.lor (__state e1) States.finished)) ;;
   e2 <- get ;;
   match __promiseControl e2 with
   | Some promiseControl =>
       if isDone e2 then call_resolve promiseControl (result e2)
       else call_reject promiseControl (error e2)
   | None => ret tt
   end) e = (Normal tt, finished_of e).
Proof.
  intros P NF. rewrite bind_get, bind_modify, bind_get.
  unfold finished_of. cbn [__promiseControl set_state].
  destruct (__promiseControl e) as [pc|] eqn:Hpc; [|reflexivity].
  specialize (P pc Hpc). rewrite NF in P. rewrite P.
  unfold outcome_promise, call_resolve, call_reject, pending_control.
  cbn [PromiseControl.resolve PromiseControl.reject].
  destruct (isDone _); reflexivity.
Qed.

Lemma log_finally_error_cases ex e :
  log_finally_error cfg ex e = (Normal tt, e) \/
  log_finally_error cfg ex e = (Normal tt, log (EvWarn (IgnoredInFinally ex)) e) \/
  (warnLevel cfg = true /\ nullish ex /\
   exists te, log_finally_error cfg ex e =
             (Thrown (VError te), set_allocated (S (allocated e)) e)).
Proof.
  unfold log_finally_error, when, nullish.
  destruct (warnLevel cfg); auto.
  destruct ex; auto; right; right; split_and; auto; eexists; reflexivity.
Qed.

Lemma executePhaseFinally_spec e :
  Inv e ->
  (__state e < States.finished ->
   enters HFinally (trace e) = O /\
   (__state e = States.do \/ States.did <= __state e)) ->
  finally_post (finally_threw cfg nested) e (__executePhaseFinally cfg nested e).
Proof.
  intros I Pre. unfold __executePhaseFinally. rewrite bind_get.
  destruct (Z.ltb_spec (__state e) States.finished) as [L|L].
  2:{ unfold when, ret, finally_post. cbn [fst snd].
      split_and; auto using Evolves_refl; try discriminate; try lia. }
  destruct (Pre L) as (Z & St). unfold when at 1. unfold when at 1.
  assert (Step1 : exists e1,
    (if negb (isSettled e) then done VUndefined else ret tt) e = (Normal tt, e1) /\
    Inv e1 /\ NestedExt e e1 /\ States.did <= __state e1).
  { destruct (isSettled e) eqn:S; cbn [negb].
    - exists e. split_and; auto using NestedExt_refl.
      apply isSettled_iff in S; auto. apply I.
    - apply isSettled_false_iff in S; [|apply I].
      destruct St as [St|St]; [|lia].
      rewrite done_do by auto. eexists. split; [reflexivity|].
      destruct (done_Inv VUndefined e I St). split_and; auto. simpl. slia. }
  destruct Step1 as (e1 & E1 & I1 & N1 & L1).
  unfold bind at 1. rewrite E1.
  assert (Z1 : enters HFinally (trace e1) = O).
  { destruct N1 as [_ En _]. now rewrite En. }
  assert (U1 : __state e1 < States.finished).
  { apply N1. auto. }
  assert (H1 : in_hook e1) by (unfold in_hook; split_and; slia).
  assert (I2 : Inv (log (EvEnter HFinally) e1))
    by (apply Inv_enter_finally; auto).
  destruct (call_hook_spec unit HFinally (_onPhaseFinally cfg) e1 I2 H1)
    as (F & I3 & H3 & N3).
  unfold bind at 1, try_catch.
  destruct (call_hook nested HFinally (_onPhaseFinally cfg) e1)
    as [[[]|ex|] e3] eqn:Ec;
    cbn [fst snd] in *; [| |contradiction].
  - rewrite finish_tail_eq.
    + apply (finally_assemble (finally_threw cfg nested) e e1 e3); auto.
    + apply I3.
    + apply isFinished_false_iff; [apply I3 | apply H3].
  - destruct (log_finally_error_cases ex e3) as [E|[E|(W & Nu & te & E)]];
      rewrite E.
    + rewrite finish_tail_eq.
      * apply (finally_assemble (finally_threw cfg nested) e e1 e3); auto.
      * apply I3.
      * apply isFinished_false_iff; [apply I3 | apply H3].
    + rewrite finish_tail_eq.
      * apply (finally_assemble (finally_threw cfg nested) e e1
                 (log (EvWarn (IgnoredInFinally ex)) e3)); auto.
        -- eapply NestedExt_trans; eauto using NestedExt_log_warn.
        -- apply Inv_log_warn; auto.
      * apply (pc_ok_eq e3); auto. apply I3.
      * apply isFinished_false_iff; [apply I3 | apply H3].
    + apply (finally_assemble (finally_threw cfg nested) e e1 e3); auto.
      split; auto.
      exists (log (EvEnter HFinally) e1), ex, e3. split_and; auto.
Qed.

End Phases.


(** ** Between two operations *)

Lemma Top_new : Top new_Execution.
Proof.
  constructor; simpl; auto; try contradiction.
  constructor; simpl; unfold count_ok, validated_ok, chains_ok; simpl;
    auto; try (split; auto; fail).
  - unfold valid_state; auto.
  - split; simpl; auto; repeat constructor.
  - intros pc [=].
  - split_and; auto. intros v0 rest [=].
Qed.

Lemma Top_same e e' :
  Top e -> Inv e' -> __state e <= __state e' ->
  __isInside e' = __isInside e -> chains e' = chains e ->
  enters HFinally (trace e') = enters HFinally (trace e) ->
  Top e'.
Proof.
  intros [I C O] I' S In Ch En. constructor; auto.
  - rewrite Ch, En. auto.
  - rewrite In. intros. apply O. lia.
Qed.

Lemma Top_nested e e' : Top e -> Inv e' -> NestedExt e e' -> Top e'.
Proof.
  intros T I N. apply (Top_same e); auto; try apply N;
    apply NestedExt_state; auto.
Qed.

Lemma top_post_nested A e (r : Res A) e' :
  Top e -> r <> OutOfFuel -> Inv e' -> NestedExt e e' -> top_post e (r, e').
Proof.
  intros T F I N. unfold top_post. cbn [fst snd]. split_and; auto.
  - eapply Top_nested; eauto.
  - apply N.
Qed.

Lemma top_post_thrown A e ex :
  Top e -> @top_post A e (Thrown ex, set_allocated (S (allocated e)) e).
Proof.
  intros T. apply top_post_nested; auto using NestedExt_alloc; try discriminate.
  apply Inv_alloc, T.
Qed.

Lemma Inv_set_isInside b e : Inv e -> Inv (set_isInside b e).
Proof. apply Inv_same; auto; [repeat split | now exists []]. Qed.

Lemma callInside_outside A (f : M A) e :
  __isInside e = false ->
  __callInside f e =
  match f (set_isInside true e) with
  | (Normal a, e1) => (Normal a, set_isInside false e1)
  | (r, e1) => (r, e1)
  end.
Proof.
  intros H. unfold __callInside. rewrite bind_get, H, bind_modify.
  unfold bind, modify, ret.
  destruct (f (set_isInside true e)) as [[a|ex|] e1]; reflexivity.
Qed.

Lemma Top_late e :
  Inv e -> States.will < __state e ->
  (forall c, In c (chains e) -> active c -> enters HFinally (trace e) = O) ->
  Top e.
Proof. intros I L C. constructor; auto. intros. lia. Qed.

Lemma Inv_set_chains cs e :
  Inv e -> (List.length cs <= 1)%nat -> (__state e <= States.will -> cs = []) ->
  Inv (set_chains cs e).
Proof.
  intros [inv_valid inv_hist inv_pc inv_init inv_will inv_do inv_finally inv_validated inv_chains] L Z.
  constructor;
    [ exact inv_valid | exact inv_hist | exact inv_pc | exact inv_init
    | exact inv_will | exact inv_do | exact inv_finally | exact inv_validated | ].
  split; auto.
Qed.

Lemma Evolves_set_chains cs e : Evolves e (set_chains cs e).
Proof. apply Evolves_same; auto. now exists []. Qed.

Lemma Evolves_set_isInside b e : Evolves e (set_isInside b e).
Proof. apply Evolves_same; auto. now exists []. Qed.

Lemma PhaseExt_Evolves e e' : PhaseExt e e' -> Evolves e e'.
Proof. intros []. auto. Qed.

Lemma valid_after_will s :
  valid_state s -> States.will < s -> States.do <= s.
Proof. intros V L. cases_state V; subst; slia. Qed.

Lemma valid_do_or_settled s :
  valid_state s -> States.do <= s -> s = States.do \/ States.did <= s.
Proof. intros V L. cases_state V; subst; slia. Qed.

Lemma chains_singleton e i c :
  Inv e -> nth_error (chains e) i = Some c ->
  i = O /\ chains e = [c] /\ States.do <= __state e.
Proof.
  intros I H. destruct (inv_chains _ I) as (L & Z).
  destruct (chains e) as [|c0 [|c1 l]] eqn:E; simpl in L; try lia.
  - destruct i; discriminate.
  - destruct i as [|[|i]]; simpl in H; try discriminate.
    injection H as ->. split_and; auto.
    apply valid_after_will; [apply I|].
    destruct (Z_lt_le_dec States.will (__state e)); auto.
    specialize (Z l). discriminate.
Qed.

(** The guards of [execute] and [executeWill]. *)
Lemma execute_late cfg nested e :
  States.will < __state e ->
  execute cfg nested e =
  (Thrown (OperationInvalidError (Own (allocated e)) MSG_STATE_EXECUTE),
   set_allocated (S (allocated e)) e).
Proof.
  intros L. unfold execute. rewrite bind_get.
  destruct (Z.gtb_spec (__state e) States.will); [reflexivity | lia].
Qed.

Lemma execute_early cfg nested e :
  __state e <= States.will ->
  execute cfg nested e =
  __callInside (if isSync cfg then __executeSyncAction cfg nested
                else __executeAsyncAction cfg nested) e.
Proof.
  intros L. unfold execute. rewrite bind_get.
  destruct (Z.gtb_spec (__state e) States.will); [lia | reflexivity].
Qed.

Lemma executeWill_late cfg nested e :
  States.will < __state e ->
  executeWill cfg nested e =
  (Thrown (OperationInvalidError (Own (allocated e)) MSG_STATE_EXECUTE),
   set_allocated (S (allocated e)) e).
Proof.
  intros L. unfold executeWill. rewrite bind_get.
  destruct (Z.gtb_spec (__state e) States.will); [reflexivity | lia].
Qed.

Lemma executeWill_early cfg nested e :
  __state e <= States.will ->
  executeWill cfg nested e =
  __callInside
    (try_catch (__executePhaseInit cfg nested ;; __executePhaseWill cfg nested)
       (__rejectOrLog cfg)) e.
Proof.
  intros L. unfold executeWill. rewrite bind_get.
  destruct (Z.gtb_spec (__state e) States.will); [lia | reflexivity].
Qed.

Lemma reject_unstarted cfg nested reason e :
  __state e = States.unstarted ->
  reject cfg nested reason e =
  __executePhaseFinally cfg nested (rejected reason e).
Proof.
  intros H. unfold reject. unfold bind at 1.
  rewrite assertStates_pass by (rewrite H; discriminate).
  rewrite bind_get. unfold bind at 1. rewrite __reject_eq.
  assert (X : isExecuting e = false)
    by (unfold isExecuting, isUnstarted; rewrite H; reflexivity).
  rewrite X. reflexivity.
Qed.

Section TopLevel.

Variable cfg : Config.
Variable nested : Call -> M unit.
Hypothesis Hnested : nested_ok nested.

Lemma top_done v e : Top e -> top_post e (done v e).
Proof.
  intros T. pose proof (top_inv _ T) as I.
  destruct (Z.eq_dec (__state e) States.do) as [E|E].
  - rewrite done_do by auto. destruct (done_Inv v e I E).
    apply top_post_nested; auto. discriminate.
  - rewrite done_not_do by (auto; apply I). apply top_post_thrown; auto.
Qed.

Lemma top_promise e : Top e -> top_post e (promise e).
Proof.
  intros T. pose proof (top_inv _ T) as I. unfold promise, bind, ret.
  destruct (getPromiseControl_spec e I) as (pc & R & P & _ & I' & N & _).
  destruct (__getPromiseControl e) as [r e']. cbn [fst snd] in *. subst r.
  apply top_post_nested; auto. discriminate.
Qed.

(** The guarded phases: what the [try] statements of [execute] and
    [executeWill] leave behind. *)
Lemma try_rejectOrLog A (m : M A) (h : Value -> M A) e0 e k :
  phase_post e0 k (m e) -> k <= States.did ->
  (forall ex e1, exists a,
      h ex e1 = (Normal a, snd (__rejectOrLog cfg ex e1))) ->
  phase_post e0 k (try_catch m h e) /\
  exists a, fst (try_catch m h e) = Normal a.
Proof.
  intros (F & I & P & K) L H. unfold try_catch.
  destruct (m e) as [[a|ex|] e1]; cbn [fst snd] in *.
  - split; [|eauto]. unfold phase_post. cbn [fst snd]. split_and; auto.
  - destruct (H ex e1) as (a & ->). cbn [fst snd]. split; [|eauto].
    destruct (rejectOrLog_spec cfg ex e1 I) as (_ & I' & N & S).
    unfold phase_post. cbn [fst snd]. split_and; try discriminate; auto.
    + eapply PhaseExt_trans; eauto using NestedExt_PhaseExt.
    + intros; lia.
  - contradiction.
Qed.

Lemma phases_will_spec e :
  Inv e -> __isInside e = true ->
  phase_post e States.will
    ((__executePhaseInit cfg nested ;; __executePhaseWill cfg nested) e).
Proof.
  intros I In. apply phase_post_bind with (k0 := States.init).
  - apply executePhaseInit_spec; auto.
  - intros _ e1 I1 P1 _. apply executePhaseWill_spec; auto.
    destruct P1 as [_ X _ _ _]. congruence.
Qed.

Lemma phases_do_spec A (g : option DoPromise -> A) e :
  Inv e -> __isInside e = true ->
  phase_post e States.do
    ((__executePhaseInit cfg nested ;; __executePhaseWill cfg nested ;;
      p <- __executePhaseDo cfg nested ;; ret (g p)) e).
Proof.
  intros I In. apply phase_post_bind with (k0 := States.init).
  - apply executePhaseInit_spec; auto.
  - intros _ e1 I1 P1 _. apply phase_post_bind with (k0 := States.will).
    + apply executePhaseWill_spec; auto.
      destruct P1 as [_ X _ _ _]. congruence.
    + intros _ e2 I2 P2 _. apply phase_post_bind with (k0 := States.do).
      * apply executePhaseDo_spec; auto.
      * intros. apply phase_post_ret; auto.
Qed.

Lemma top_reject reason e : Top e -> top_post e (reject cfg nested reason e).
Proof.
  intros T. pose proof (top_inv _ T) as I.
  destruct (Z_lt_le_dec (__state e) States.did) as [L|L].
  - destruct (valid_unsettled _ (inv_valid _ I) L) as [U|X].
    + rewrite reject_unstarted by auto.
      destruct (rejected_Inv reason e I L) as (I1 & N1).
      destruct (rejected_fields reason e) as (Fi & Fp & Fc & Ft & _).
      assert (S1 : States.did <= __state (rejected reason e) < States.finished).
      { rewrite rejected_state. destruct (isFail_of reason); slia. }
      destruct (executePhaseFinally_spec cfg nested Hnested (rejected reason e) I1)
        as (F & I2 & Ev & In & Ch & _ & _ & X & _).
      { intros _. split; [|lia]. rewrite Ft. simpl. apply I. slia. }
      destruct (X (proj2 S1)) as (_ & L2).
      unfold top_post. split_and; auto.
      * apply Top_late; auto; try slia.
        rewrite Ch, Fc. destruct (inv_chains _ I) as (_ & Z).
        rewrite Z by slia. intros c [].
      * eapply Evolves_trans; [apply N1 | auto].
    + rewrite reject_executing by auto.
      destruct (rejected_Inv reason e I L).
      apply top_post_nested; auto. discriminate.
  - rewrite reject_settled by (auto; apply I). apply top_post_thrown; auto.
Qed.

Lemma guarded_will e :
  Inv e -> __isInside e = true ->
  exists e1,
    try_catch (__executePhaseInit cfg nested ;; __executePhaseWill cfg nested)
      (__rejectOrLog cfg) e = (Normal tt, e1) /\
    Inv e1 /\ PhaseExt e e1 /\ States.will <= __state e1.
Proof.
  intros I In.
  destruct (try_rejectOrLog unit
              (__executePhaseInit cfg nested ;; __executePhaseWill cfg nested)
              (__rejectOrLog cfg) e e States.will)
    as ((F & I1 & P1 & K1) & (a & Ea)).
  - apply phases_will_spec; auto.
  - slia.
  - intros ex e1. exists tt. apply rejectOrLog_normal.
  - destruct (try_catch _ _ e) as [r e1]. cbn [fst snd] in *. subst r.
    destruct a. exists e1. split_and; eauto.
Qed.

Lemma guarded_do A (g : option DoPromise -> A) (h : Value -> M A) e :
  Inv e -> __isInside e = true ->
  (forall ex e1, exists a,
      h ex e1 = (Normal a, snd (__rejectOrLog cfg ex e1))) ->
  exists a e1,
    try_catch
      (__executePhaseInit cfg nested ;; __executePhaseWill cfg nested ;;
       p <- __executePhaseDo cfg nested ;; ret (g p)) h e = (Normal a, e1) /\
    Inv e1 /\ PhaseExt e e1 /\ States.do <= __state e1.
Proof.
  intros I In H.
  destruct (try_rejectOrLog A
              (__executePhaseInit cfg nested ;; __executePhaseWill cfg nested ;;
               p <- __executePhaseDo cfg nested ;; ret (g p))
              h e e States.do)
    as ((F & I1 & P1 & K1) & (a & Ea)); auto.
  - apply phases_do_spec; auto.
  - slia.
  - destruct (try_catch _ _ e) as [r e1]. cbn [fst snd] in *. subst r.
    exists a, e1. split_and; eauto.
Qed.

Lemma top_executeWill e : Top e -> top_post e (executeWill cfg nested e).
Proof.
  intros T. pose proof (top_inv _ T) as I.
  destruct (Z_lt_le_dec States.will (__state e)) as [L|L].
  - rewrite executeWill_late by auto. apply top_post_thrown; auto.
  - rewrite executeWill_early by auto.
    rewrite callInside_outside by (apply T; auto).
    destruct (guarded_will (set_isInside true e)) as (e1 & -> & I1 & P1 & L1);
      auto using Inv_set_isInside.
    destruct P1 as [Ev In Ch Fi Un]. simpl in *.
    unfold top_post. cbn [fst snd]. split_and; try discriminate.
    + constructor; auto using Inv_set_isInside.
      simpl. rewrite Ch, Fi. apply T.
    + apply (Evolves_trans _ (set_isInside true e));
        auto using Evolves_set_isInside.
      apply (Evolves_trans _ e1); auto using Evolves_set_isInside.
Qed.

Lemma top_execute e : Top e -> top_post e (execute cfg nested e).
Proof.
  intros T. pose proof (top_inv _ T) as I.
  destruct (Z_lt_le_dec States.will (__state e)) as [L|L].
  - rewrite execute_late by auto. apply top_post_thrown; auto.
  - rewrite execute_early by auto.
    rewrite callInside_outside by (apply T; auto).
    assert (Z : enters HFinally (trace e) = O) by (apply I; slia).
    assert (C : chains e = []) by (apply I; auto).
    destruct (isSync cfg).
    + unfold __executeSyncAction. unfold bind at 1.
      destruct (guarded_do unit (fun _ => tt) (__rejectOrLog cfg)
                  (set_isInside true e))
        as ([] & e1 & E1 & I1 & P1 & L1); auto using Inv_set_isInside.
      { intros ex e1. exists tt. apply rejectOrLog_normal. }
      rewrite E1.
      destruct P1 as [Ev In Ch Fi Un]. simpl in *.
      destruct (executePhaseFinally_spec cfg nested Hnested e1 I1)
        as (F & I2 & Ev2 & In2 & Ch2 & _ & _ & X & _).
      { intros _. split; [congruence|].
        apply valid_do_or_settled; auto. apply I1. }
      assert (L2 : States.do <= __state (snd (__executePhaseFinally cfg nested e1))).
      { apply evo_state in Ev2. lia. }
      assert (Ev' : Evolves e (snd (__executePhaseFinally cfg nested e1))).
      { apply (Evolves_trans _ (set_isInside true e));
          auto using Evolves_set_isInside.
        apply (Evolves_trans _ e1); auto. }
      destruct (__executePhaseFinally cfg nested e1) as [[[]|ex|] e2];
        cbn [fst snd] in *; [| |contradiction];
        unfold top_post; cbn [fst snd]; (split_and; [discriminate| |]).
      * apply Top_late; auto using Inv_set_isInside; try (simpl; slia).
        simpl. rewrite Ch2, Ch, C. intros c [].
      * apply (Evolves_trans _ e2); auto using Evolves_set_isInside.
      * apply Top_late; auto; try slia. rewrite Ch2, Ch. simpl. rewrite C.
        intros c [].
      * auto.
    + unfold __executeAsyncAction. unfold bind at 1.
      destruct (guarded_do Chain
                  (fun p => match p with
                            | Some dp => Await dp
                            | None => FinallyQueued
                            end)
                  (fun ex => __rejectOrLog cfg ex ;; ret FinallyQueued)
                  (set_isInside true e))
        as (c & e1 & E1 & I1 & P1 & L1); auto using Inv_set_isInside.
      { intros ex e1. exists FinallyQueued. unfold bind.
        rewrite rejectOrLog_normal. reflexivity. }
      rewrite E1. unfold schedule, modify.
      destruct P1 as [Ev In Ch Fi Un]. simpl in *.
      unfold top_post; cbn [fst snd]; (split_and; [discriminate| |]).
      * apply Top_late.
        -- apply Inv_set_isInside. apply Inv_set_chains; auto.
           ++ rewrite Ch, C. simpl. lia.
           ++ intros. slia.
        -- simpl. slia.
        -- simpl. intros _ _ _. congruence.
      * apply (Evolves_trans _ (set_isInside true e));
          auto using Evolves_set_isInside.
        apply (Evolves_trans _ e1); auto.
        apply (Evolves_trans _ (set_chains (chains e1 ++ [c]) e1));
          auto using Evolves_set_isInside, Evolves_set_chains.
Qed.

Lemma top_post_ret e : Top e -> top_post e (Normal tt, e).
Proof.
  intros T. unfold top_post. cbn [fst snd].
  split_and; auto using Evolves_refl. discriminate.
Qed.

(** Replacing the only chain of an execution past the will phase. *)
Lemma Top_set_chain c e :
  Inv e -> States.do <= __state e ->
  (active c -> enters HFinally (trace e) = O) ->
  Top (set_chains [c] e).
Proof.
  intros I L Z. apply Top_late.
  - apply Inv_set_chains; auto. intros. slia.
  - simpl. slia.
  - simpl. intros c0 [<-|[]]. auto.
Qed.

(** An operation on the only chain of the execution. *)
Lemma top_set_chain c c' e e1 :
  Top e -> chains e = [c] -> active c ->
  Inv e1 -> PhaseExt e e1 ->
  top_post e (set_chain 0 c' e1).
Proof.
  intros T C A I1 [Ev In Ch Fi Un]. pose proof (top_inv _ T) as I.
  assert (L : States.do <= __state e).
  { apply (chains_singleton e 0 c); auto. now rewrite C. }
  unfold set_chain, modify. rewrite Ch, C. cbn [firstn skipn app].
  unfold top_post. cbn [fst snd]. split_and; try discriminate.
  - apply Top_set_chain; auto.
    + apply evo_state in Ev. lia.
    + intros _. rewrite Fi. apply (top_chain _ T c); auto.
      rewrite C. left; auto.
  - apply (Evolves_trans _ e1); auto using Evolves_set_chains.
Qed.

Lemma top_settle i rejection e :
  Top e -> top_post e (on_settle cfg nested i rejection e).
Proof.
  intros T. pose proof (top_inv _ T) as I.
  unfold on_settle. rewrite bind_get.
  destruct (nth_error (chains e) i) as [c|] eqn:N; [|apply top_post_ret; auto].
  destruct (chains_singleton e i c I N) as (-> & C & L).
  destruct c as [p|reason| |]; try (apply top_post_ret; auto).
  assert (A : active (Await p)) by discriminate.
  destruct rejection as [reason|].
  - apply (top_set_chain (Await p)); auto using PhaseExt_refl.
  - destruct p as [t|t].
    + apply (top_set_chain (Await (HookPromise t))); auto using PhaseExt_refl.
    + unfold bind at 1, try_catch.
      assert (D : phase_post e States.do
                ((q <- __executePhaseDoDefaultAsync cfg nested;;
                  ret match q with
                      | Some t0 => Await (HookPromise t0)
                      | None => FinallyQueued
                      end) e)).
      { apply phase_post_bind with (k0 := States.do).
        - apply executePhaseDoDefaultAsync_spec; auto.
        - intros. apply phase_post_ret; auto. }
      destruct D as (F & I1 & P1 & _).
      match goal with
      | |- context [match ?m e with _ => _ end] =>
          destruct (m e) as [[c'|ex|] e1]
      end; cbn [fst snd] in *; [| |contradiction];
        apply (top_set_chain (Await (ThenDoDefault t))); auto.
Qed.

Lemma top_tick i e : Top e -> top_post e (on_tick cfg nested i e).
Proof.
  intros T. pose proof (top_inv _ T) as I.
  unfold on_tick. rewrite bind_get.
  destruct (nth_error (chains e) i) as [c|] eqn:N; [|apply top_post_ret; auto].
  destruct (chains_singleton e i c I N) as (-> & C & L).
  destruct c as [p|reason| |]; try (apply top_post_ret; auto).
  - unfold bind at 1, try_catch. rewrite rejectOrLog_normal.
    destruct (rejectOrLog_spec cfg reason e I) as (_ & I1 & N1 & _).
    apply (top_set_chain (CatchQueued reason)); auto using NestedExt_PhaseExt.
    discriminate.
  - unfold set_chain. rewrite bind_modify, C. cbn [firstn skipn app].
    set (e0 := set_chains [Completed] e).
    assert (I0 : Inv e0).
    { apply Inv_set_chains; auto. intros; slia. }
    assert (Z : enters HFinally (trace e) = O).
    { apply (top_chain _ T FinallyQueued); [rewrite C; left; auto | discriminate]. }
    assert (NoActive : forall e', chains e' = [Completed] ->
              forall c, In c (chains e') -> active c ->
                        enters HFinally (trace e') = O).
    { intros e' -> c [<-|[]] X. now elim X. }
    destruct (__isInside e0) eqn:In0.
    + rewrite callInside_inside by auto.
      unfold top_post. cbn [fst snd]. split_and; try discriminate.
      * apply Top_late;
          [apply Inv_alloc; auto | simpl; slia | apply NoActive; reflexivity].
      * apply (Evolves_trans _ e0);
          [apply Evolves_set_chains | apply Evolves_alloc; lia].
    + rewrite callInside_outside by auto.
      destruct (executePhaseFinally_spec cfg nested Hnested
                  (set_isInside true e0))
        as (F & I2 & Ev2 & In2 & Ch2 & _ & _ & X & _).
      { apply Inv_set_isInside; auto. }
      { intros _. split; auto. apply valid_do_or_settled; auto. apply I. }
      assert (L2 : States.do <=
                   __state (snd (__executePhaseFinally cfg nested
                                   (set_isInside true e0)))).
      { apply evo_state in Ev2. simpl in Ev2. lia. }
      assert (Ev' : Evolves e (snd (__executePhaseFinally cfg nested
                                      (set_isInside true e0)))).
      { apply (Evolves_trans _ e0); [apply Evolves_set_chains|].
        apply (Evolves_trans _ (set_isInside true e0));
          auto using Evolves_set_isInside. }
      destruct (__executePhaseFinally cfg nested (set_isInside true e0))
        as [[[]|ex|] e2];
        cbn [fst snd] in *; [| |contradiction];
        unfold top_post; cbn [fst snd]; (split_and; [discriminate| |]).
      * apply Top_late;
          [apply Inv_set_isInside; auto | simpl; slia
          | apply NoActive; simpl; rewrite Ch2; reflexivity].
      * apply (Evolves_trans _ e2); auto using Evolves_set_isInside.
      * apply Top_late;
          [auto | slia | apply NoActive; simpl; rewrite Ch2; reflexivity].
      * auto.
Qed.

End TopLevel.

(** ** Every operation keeps the invariants *)

Lemma api_unfold cfg fuel :
  api cfg fuel = dispatch cfg (nested_api cfg fuel).
Proof. destruct fuel; reflexivity. Qed.

Lemma nested_api_ok cfg fuel : nested_ok (nested_api cfg (S fuel)).
Proof.
  cbn [nested_api]. rewrite api_unfold. apply dispatch_nested_ok.
Qed.

Theorem run_op_top cfg fuel op e :
  Top e -> top_post e (run_op cfg (S fuel) op e).
Proof.
  intros T. pose proof (nested_api_ok cfg fuel) as Hn.
  destruct op as [c|i r|i]; cbn [run_op].
  - rewrite api_unfold. destruct c; cbn [dispatch].
    + apply top_execute; auto.
    + apply top_executeWill; auto.
    + apply top_done; auto.
    + apply top_reject; auto.
    + unfold bind, ret.
      destruct (top_promise e T) as (F & T' & Ev).
      destruct (promise e) as [[p|ex|] e']; cbn [fst snd] in *;
        unfold top_post; cbn [fst snd]; split_and; auto; discriminate.
  - apply top_settle; auto.
  - apply top_tick; auto.
Qed.

Theorem reachable_Top cfg e : reachable cfg e -> Top e.
Proof.
  induction 1 as [|e op fuel R IH].
  - apply Top_new.
  - apply run_op_top; auto.
Qed.

(* ================================================================== *)
(** ** The properties of the specification *)

Lemma reaches_reachable cfg e e' :
  reachable cfg e -> reaches cfg e e' -> reachable cfg e'.
Proof.
  intros R H. induction H; auto. now apply reach_step.
Qed.

Lemma reaches_Evolves cfg e e' :
  Top e -> reaches cfg e e' -> Top e' /\ Evolves e e'.
Proof.
  intros T H. induction H as [|e' op fuel H (T' & Ev)].
  - auto using Evolves_refl.
  - destruct (run_op_top cfg fuel op e' T') as (_ & T'' & Ev').
    split; auto. eapply Evolves_trans; eauto.
Qed.

(** Every operation on an execution returns or throws, whatever the
    overridable methods do: a call they make back into the execution ends
    without going one level deeper, so a depth of one is enough. *)
Theorem run_op_returns cfg fuel op e :
  reachable cfg e -> fst (run_op cfg (S fuel) op e) <> OutOfFuel.
Proof.
  intros R.
  destruct (run_op_top cfg fuel op e (reachable_Top cfg e R)) as (F & _).
  exact F.
Qed.

Lemma reachable_run1 cfg op e : reachable cfg e -> reachable cfg (run1 cfg op e).
Proof. apply reach_step. Qed.

Lemma finished_states s :
  valid_state s -> States.finished <= s ->
  s = Z.lor States.did States.finished \/
  s = Z.lor States.canceled States.finished \/
  s = Z.lor States.failed States.finished.
Proof. intros V L. cases_state V; subst; auto; exfalso; slia. Qed.

(** C1: once the finished bit is set, exactly one of the bits did,
    canceled and failed is set, and no operation clears the finished bit
    (the state does not change any more). *)
Theorem finished_has_one_outcome cfg e :
  reachable cfg e -> isFinished e = true ->
  outcome_count e = 1%nat /\
  forall e', reaches cfg e e' ->
    isFinished e' = true /\ __state e' = __state e.
Proof.
  intros R F. pose proof (reachable_Top cfg e R) as T.
  pose proof (inv_valid _ (top_inv _ T)) as V.
  apply isFinished_iff in F; auto.
  destruct (finished_states _ V F) as [X|[X|X]].
  all: split; [unfold outcome_count, isDone, isCanceled, isFailed; rewrite X;
               reflexivity|].
  all: intros e' H; destruct (reaches_Evolves cfg e e' T H) as (T' & Ev).
  all: assert (S : isSettled e = true)
         by (unfold isSettled; rewrite X; reflexivity).
  all: destruct (evo_settled _ _ Ev S) as (_ & _ & [Y|Y]);
       unfold isFinished; rewrite Y, X; split; reflexivity.
Qed.

Lemma reachable_executed : reachable (plain true) executed.
Proof. apply reachable_run1, reach_new. Qed.

Lemma finished_has_one_outcome_witness :
  reachable (plain true) executed /\ isFinished executed = true /\
  outcome_count executed = 1%nat /\
  forall e', reaches (plain true) executed e' ->
    isFinished e' = true /\ __state e' = __state executed.
Proof.
  split; [exact reachable_executed|]. split; [reflexivity|].
  apply (finished_has_one_outcome (plain true) executed).
  - exact reachable_executed.
  - reflexivity.
Defined.



(** Re-entering a phase that was reached is a no-op. *)
Lemma executePhaseInit_skip cfg nested e :
  States.init <= __state e ->
  __executePhaseInit cfg nested e = (Normal tt, e).
Proof.
  intros L. unfold __executePhaseInit. rewrite bind_get. unfold when.
  destruct (Z.ltb_spec (__state e) States.init); [lia | reflexivity].
Qed.

Lemma executePhaseDo_skip cfg nested e :
  States.do <= __state e ->
  __executePhaseDo cfg nested e = (Normal None, e).
Proof.
  intros L. unfold __executePhaseDo. rewrite bind_get.
  destruct (Z.ltb_spec (__state e) States.do); [lia | reflexivity].
Qed.

Lemma executePhaseFinally_skip cfg nested e :
  States.finished <= __state e ->
  __executePhaseFinally cfg nested e = (Normal tt, e).
Proof.
  intros L. unfold __executePhaseFinally. rewrite bind_get. unfold when.
  destruct (Z.ltb_spec (__state e) States.finished); [lia | reflexivity].
Qed.

(** C5: the values [__state] takes are strictly increasing (the history,
    current value first, is strictly decreasing, and starts at unstarted);
    calling the init, will or do phase again at or past that phase changes
    nothing; and each of [_onPhaseInit], [_onPhaseWill], [_onPhaseDo],
    [_onPhaseFinally] is entered at most once. *)
Theorem phases_run_once cfg e :
  reachable cfg e ->
  (Sorted Z.gt (history (trace e)) /\
   hd 0 (history (trace e)) = __state e /\
   last (history (trace e)) 0 = States.unstarted) /\
  (forall nested,
     (States.init <= __state e ->
      __executePhaseInit cfg nested e = (Normal tt, e)) /\
     (States.will <= __state e ->
      __executePhaseWill cfg nested e = (Normal tt, e)) /\
     (States.do <= __state e ->
      __executePhaseDo cfg nested e = (Normal None, e))) /\
  (enters HInit (trace e) <= 1 /\ enters HWill (trace e) <= 1 /\
   enters HDo (trace e) <= 1 /\ enters HFinally (trace e) <= 1)%nat.
Proof.
  intros R. pose proof (reachable_Top cfg e R) as T.
  destruct (top_inv _ T) as [V [Hh Hs] _ [Ci _] [Cw _] [Cd _] [Cf _] _ _].
  split_and; auto.
  - clear. induction (trace e) as [|ev t IH]; [reflexivity|].
    destruct ev; simpl; auto.
    destruct (history t) eqn:E; [|exact IH].
    destruct t as [|[] t]; discriminate.
  - intros. split_and.
    + apply executePhaseInit_skip.
    + apply executePhaseWill_skip.
    + apply executePhaseDo_skip.
Qed.

Lemma phases_run_once_witness :
  reachable (plain true) executed /\
  (Sorted Z.gt (history (trace executed)) /\
   hd 0 (history (trace executed)) = __state executed /\
   last (history (trace executed)) 0 = States.unstarted) /\
  (forall nested,
     (States.init <= __state executed ->
      __executePhaseInit (plain true) nested executed = (Normal tt, executed)) /\
     (States.will <= __state executed ->
      __executePhaseWill (plain true) nested executed = (Normal tt, executed)) /\
     (States.do <= __state executed ->
      __executePhaseDo (plain true) nested executed = (Normal None, executed))) /\
  (enters HInit (trace executed) <= 1 /\ enters HWill (trace executed) <= 1 /\
   enters HDo (trace executed) <= 1 /\ enters HFinally (trace executed) <= 1)%nat.
Proof.
  split; [exact reachable_executed|].
  exact (phases_run_once (plain true) executed reachable_executed).
Defined.

(** *** Validation *)

Lemma validated_app l t : validated (l ++ t) = validated l ++ validated t.
Proof.
  induction l as [|ev l IH]; [reflexivity|].
  destruct ev; simpl; now rewrite ?IH.
Qed.

Lemma validated_grows e e' a :
  Inv e' -> Evolves e e' -> In a (validated (trace e)) ->
  validated (trace e') = [a].
Proof.
  intros I' Ev H. destruct (evo_trace _ _ Ev) as (l & E).
  destruct (inv_validated _ I') as (L & _).
  rewrite E, validated_app in *. rewrite length_app in L.
  destruct (validated (trace e)) as [|b [|c t]]; simpl in *; try tauto; try lia.
  destruct H as [->|[]].
  destruct (validated l); simpl in *; [reflexivity | lia].
Qed.

(** C3: when [_validate] has answered with a non-empty list whose first
    element is the error [err], the execution stands rejected with [err]
    itself, from then on: it is settled, failed unless [err] is a
    [UserError] that is no [RuntimeError] (then canceled), and
    [_onPhaseDo] has not been entered and never is. *)
Theorem validation_failure_rejects cfg e err rest :
  reachable cfg e ->
  In (Returns (Some (VError err :: rest))) (validated (trace e)) ->
  forall e', reaches cfg e e' ->
    __error e' = VError err /\
    isSettled e' = true /\ isRejected e' = true /\
    isFailed e' =
      (negb (instanceof_UserError err) || instanceof_RuntimeError err) /\
    isCanceled e' =
      (instanceof_UserError err && negb (instanceof_RuntimeError err)) /\
    enters HDo (trace e') = O.
Proof.
  intros R H e' Re. pose proof (reachable_Top cfg e R) as T.
  destruct (reaches_Evolves cfg e e' T Re) as (T' & Ev).
  pose proof (validated_grows e e' _ (top_inv _ T') Ev H) as V.
  destruct (inv_validated _ (top_inv _ T')) as (_ & _ & X).
  destruct (X _ _ V) as (Rj & Fl & Cn & Er & Do).
  split_and; auto.
  - now apply (Er err).
  - now apply isRejected_isSettled.
  - rewrite Cn. unfold isFail_of. simpl.
    destruct (instanceof_UserError err), (instanceof_RuntimeError err); reflexivity.
Qed.

Lemma validation_failure_rejects_witness :
  reachable (invalid_action true) invalid_executed /\
  In (Returns (Some [VError invalid_error]))
     (validated (trace invalid_executed)) /\
  forall e', reaches (invalid_action true) invalid_executed e' ->
    __error e' = VError invalid_error /\
    isSettled e' = true /\ isRejected e' = true /\
    isFailed e' = true /\ isCanceled e' = false /\
    enters HDo (trace e') = O.
Proof.
  assert (R : reachable (invalid_action true) invalid_executed)
    by (apply reachable_run1, reach_new).
  assert (H : In (Returns (Some [VError invalid_error]))
                 (validated (trace invalid_executed)))
    by (left; reflexivity).
  split; [exact R|]. split; [exact H|].
  exact (validation_failure_rejects (invalid_action true) invalid_executed
           invalid_error [] R H).
Defined.

(** *** [executeWill] on an invalid action *)

Section WillInvalid.

Variable cfg : Config.
Variable nested : Call -> M unit.
Hypothesis Hnested : nested_ok nested.


Lemma rejected_isRejected reason e : isRejected (rejected reason e) = true.
Proof.
  unfold isRejected. rewrite rejected_state.
  destruct (isFail_of reason); reflexivity.
Qed.


Hypothesis Hinvalid : forall x, is_invalid (_validate cfg x).



End WillInvalid.




(** *** What an overridable method throws *)




(** *** The promise *)







(** *** Rejecting *)







(** *** A finally method that throws [undefined] *)

(** C9 fails at this input: with warnings logged, an [_onPhaseFinally]
    that throws [undefined] makes the [catch] block itself throw (it reads
    [ex.stack]); [execute()] throws that [TypeError], the finished bit is
    not set, [__isInside] stays on and a promise requested before is left
    pending.  The outcome, result and error are those of a normal
    return. *)
Theorem finally_throwing_undefined_escapes :
  fst (api (throwing_finally true) 1 CExecute new_Execution) =
    Thrown (VError (mkErrorObj (Own 0) false false "TypeError"
              ["Cannot read properties of undefined"%string])) /\
  isFinished (snd (api (throwing_finally true) 1 CExecute new_Execution))
    = false /\
  __isInside (snd (api (throwing_finally true) 1 CExecute new_Execution))
    = true /\
  isDone (snd (api (throwing_finally true) 1 CExecute new_Execution)) = true /\
  __state (snd (api (throwing_finally true) 1 CExecute new_Execution)) =
    States.did /\
  __state (snd (api (plain true) 1 CExecute new_Execution)) =
    Z.lor States.did States.finished /\
  option_map (fun pc => promise_state (PromiseControl.promise pc))
    (__promiseControl
       (snd (api (throwing_finally true) 1 CExecute
               (run1 (throwing_finally true) (Api CPromise) new_Execution)))) =
    Some Pending.
Proof. repeat split. Qed.

(** *** What the finally phase cannot do *)

(** Whatever [_onPhaseFinally] does or throws, the finally phase of a
    settled execution leaves the result, the error and the outcome bits as
    they were, and when it returns the execution is finished. *)
Theorem finally_keeps_outcome cfg fuel e :
  reachable cfg e -> isSettled e = true -> enters HFinally (trace e) = O ->
  __result (snd (__executePhaseFinally cfg (api cfg fuel) e)) = __result e /\
  __error (snd (__executePhaseFinally cfg (api cfg fuel) e)) = __error e /\
  isDone (snd (__executePhaseFinally cfg (api cfg fuel) e)) = isDone e /\
  isCanceled (snd (__executePhaseFinally cfg (api cfg fuel) e)) = isCanceled e /\
  isFailed (snd (__executePhaseFinally cfg (api cfg fuel) e)) = isFailed e /\
  (fst (__executePhaseFinally cfg (api cfg fuel) e) = Normal tt ->
   isFinished (snd (__executePhaseFinally cfg (api cfg fuel) e)) = true).
Proof.
  intros R St Z. pose proof (reachable_Top cfg e R) as T.
  pose proof (top_inv _ T) as I.
  pose proof (nested_api_ok cfg fuel) as Hn. cbn [nested_api] in Hn.
  assert (L : States.did <= __state e) by (apply isSettled_iff; auto; apply I).
  destruct (executePhaseFinally_spec cfg (api cfg fuel) Hn e I)
    as (_ & I2 & Ev & _ & _ & _ & _ & _ & Fin & _).
  { intros _. auto. }
  destruct (evo_settled _ _ Ev St) as (Rs & Er & Y).
  assert (B : isDone (snd (__executePhaseFinally cfg (api cfg fuel) e)) = isDone e /\
              isCanceled (snd (__executePhaseFinally cfg (api cfg fuel) e))
                = isCanceled e /\
              isFailed (snd (__executePhaseFinally cfg (api cfg fuel) e))
                = isFailed e).
  { unfold isDone, isCanceled, isFailed.
    destruct Y as [->| ->]; [auto|].
    rewrite !land_lor_finished by reflexivity. auto. }
  destruct B as (B1 & B2 & B3). split_and; auto.
  intros N. apply isFinished_iff; auto. apply I2.
Qed.

Lemma finally_keeps_outcome_witness :
  reachable (invalid_action true) invalid_willed /\
  isSettled invalid_willed = true /\
  enters HFinally (trace invalid_willed) = O /\
  __error (snd (__executePhaseFinally (invalid_action true)
                  (api (invalid_action true) 0) invalid_willed)) =
    VError invalid_error /\
  isFailed (snd (__executePhaseFinally (invalid_action true)
                   (api (invalid_action true) 0) invalid_willed)) = true.
Proof.
  assert (R : reachable (invalid_action true) invalid_willed)
    by (apply reachable_run1, reach_new).
  split; [exact R|]. split; [reflexivity|]. split; [reflexivity|].
  destruct (finally_keeps_outcome (invalid_action true) 0 invalid_willed
              R eq_refl eq_refl)
    as (_ & Er & _ & _ & Fl & _).
  split; [rewrite Er | rewrite Fl]; reflexivity.
Defined.



Lemma run_op_returns_witness :
  reachable (plain true) executed /\
  fst (run_op (plain true) 1 (Api CExecute) executed) =
    Thrown (OperationInvalidError (Own 0) MSG_STATE_EXECUTE).
Proof.
  split; [exact reachable_executed|].
  pose proof (run_op_returns (plain true) 0 (Api CExecute) executed
                reachable_executed) as N.
  destruct (fst (run_op (plain true) 1 (Api CExecute) executed)) eqn:E;
    [discriminate E | | contradiction].
  vm_compute in E. injection E as <-. reflexivity.
Defined.

(* ================================================================== *)
(** ** What the getters promise and the order of the calls *)

Lemma valid_state_pos s : valid_state s -> 1 <= s.
Proof. intros V. cases_state V; subst; lia. Qed.

Lemma Willed_above e : States.will < __state e -> Willed e.
Proof. unfold Willed. intros L E. lia. Qed.

Lemma Willed_frame e e' :
  Willed e -> __state e' = __state e -> trace e' = trace e -> Willed e'.
Proof. unfold Willed. intros W S T X. rewrite T. apply W. congruence. Qed.

Lemma contract_post_weaken A e0 e k0 k (p : Res A * Execution) :
  contract_post e k0 p -> __state e0 <= __state e -> k <= k0 ->
  contract_post e0 k p.
Proof.
  intros (C & L & K) L0 Lk. unfold contract_post. split_and; auto; try lia.
  destruct (fst p); auto. destruct K. split; auto; lia.
Qed.

Lemma contract_post_here A e (a : A) k :
  Contract e -> Willed e -> k <= __state e -> contract_post e k (Normal a, e).
Proof.
  intros C W L. unfold contract_post. cbn [fst snd]. split_and; auto; lia.
Qed.

Lemma contract_post_thrown A e0 e ex k :
  Contract e -> __state e0 <= __state e ->
  contract_post e0 k (@Thrown A ex, e).
Proof.
  intros C L. unfold contract_post. cbn [fst snd]. split_and; auto.
Qed.

Lemma kept_post_above A e (p : Res A * Execution) :
  Contract (snd p) -> __state e <= __state (snd p) ->
  States.will < __state (snd p) -> kept_post e p.
Proof. intros C L K. unfold kept_post. auto using Willed_above. Qed.

Lemma kept_post_from A e e1 (p : Res A * Execution) :
  kept_post e1 p -> __state e <= __state e1 -> kept_post e p.
Proof. intros (C & L & W) L1. unfold kept_post. split_and; auto; lia. Qed.

Lemma contract_post_of_kept A e e1 k (p : Res A * Execution) :
  kept_post e1 p -> __state e <= __state e1 -> k <= __state e1 ->
  contract_post e k p.
Proof.
  intros (C & L & W) L1 K. unfold contract_post. split_and; auto; try lia.
  destruct (fst p); auto. split; auto; lia.
Qed.

Lemma bound_post_kept A e k (p : Res A * Execution) :
  bound_post e k p -> States.will < k -> kept_post e p.
Proof.
  intros (C & L & K) W. unfold kept_post. split_and; auto.
  destruct (fst p); auto; apply Willed_above; lia.
Qed.

Lemma bound_post_contract A e k (p : Res A * Execution) :
  bound_post e k p -> States.will < k -> contract_post e k p.
Proof.
  intros (C & L & K) W. unfold contract_post. split_and; auto.
  destruct (fst p); auto. split; auto. apply Willed_above; lia.
Qed.

Lemma bound_post_from A e e1 k k1 (p : Res A * Execution) :
  bound_post e1 k1 p -> __state e <= __state e1 -> k <= __state e1 ->
  bound_post e k p.
Proof.
  intros (C & L & K) L1 K1. unfold bound_post. split_and; auto; try lia.
  destruct (fst p); auto; lia.
Qed.

(** A result above the state will. *)
Lemma bound_post_above A e k (p : Res A * Execution) :
  Contract (snd p) -> __state e <= __state (snd p) ->
  States.will < __state (snd p) -> k <= __state (snd p) -> bound_post e k p.
Proof.
  intros C L W K. unfold bound_post. split_and; auto.
  destruct (fst p); auto using Willed_above.
Qed.

Lemma contract_post_bind A B (m : M A) (f : A -> M B) e k0 k :
  contract_post e k0 (m e) ->
  (forall a e1, Contract e1 -> Willed e1 -> __state e <= __state e1 ->
                k0 <= __state e1 -> contract_post e1 k (f a e1)) ->
  contract_post e k (bind m f e).
Proof.
  intros (C & L & K) H. unfold bind.
  destruct (m e) as [[a|ex|] e1]; cbn [fst snd] in *.
  - destruct K. apply (contract_post_weaken _ e e1 k k); auto; try lia.
  - unfold contract_post. cbn [fst snd]. split_and; auto.
  - unfold contract_post. cbn [fst snd]. split_and; auto.
Qed.

(** Fields the contract does not read. *)
Lemma Contract_frame e e' :
  Contract e -> __state e' = __state e -> trace e' = trace e ->
  __result e' = __result e -> __error e' = __error e ->
  chains e' = chains e -> Contract e'.
Proof.
  intros [V H R E Ch Gi Gd En] S T Rs Er Cs.
  constructor; unfold isDone, isRejected in *; rewrite ?S, ?T, ?Rs, ?Er, ?Cs;
    auto.
Qed.

Lemma Contract_log_warn w e : Contract e -> Contract (log (EvWarn w) e).
Proof.
  intros [V H R E Ch Gi Gd En]. constructor; auto.
Qed.

Lemma Contract_set_chains cs e :
  Contract e -> States.do <= __state e -> Contract (set_chains cs e).
Proof.
  intros [V H R Er Ch Gi Gd En] L. constructor; simpl; auto.
Qed.

Lemma Contract_set_isInside b e : Contract e -> Contract (set_isInside b e).
Proof. intros C. apply (Contract_frame e); auto. Qed.

Lemma Contract_set_promiseControl pc e :
  Contract e -> Contract (set_promiseControl pc e).
Proof. intros C. apply (Contract_frame e); auto. Qed.

Lemma Contract_set_allocated n e : Contract e -> Contract (set_allocated n e).
Proof. intros C. apply (Contract_frame e); auto. Qed.

(** Throwing a new error object. *)
Lemma kept_throw_new (mk : M Value) A e :
  (forall e0, exists v, mk e0 = (Normal v, set_allocated (S (allocated e0)) e0)) ->
  Contract e -> Willed e ->
  kept_post e (bind mk (fun ex => @throw A ex) e).
Proof.
  intros H C W. unfold bind. destruct (H e) as (v & ->). unfold throw.
  unfold kept_post. cbn [fst snd].
  split_and; auto using Contract_set_allocated; simpl; lia.
Qed.

Lemma new_OperationInvalidError_eq msg e :
  exists v, new_OperationInvalidError msg e =
            (Normal v, set_allocated (S (allocated e)) e).
Proof. eexists. reflexivity. Qed.

Lemma new_TypeError_eq msg e :
  exists v, new_TypeError msg e = (Normal v, set_allocated (S (allocated e)) e).
Proof. eexists. reflexivity. Qed.

(** *** Settling *)

Lemma kept_done v e : Contract e -> Willed e -> kept_post e (done v e).
Proof.
  intros C W. destruct (Z.eq_dec (__state e) States.do) as [E|E].
  - rewrite done_do by auto. apply kept_post_above; cbn [fst snd];
      try (simpl; slia).
    destruct C as [V H R Er Ch Gi Gd En].
    constructor; simpl; auto; try discriminate.
    + unfold valid_state; auto 10.
    + unfold isRejected in Er. rewrite E in Er. exact Er.
  - rewrite done_not_do by (auto; apply C).
    unfold kept_post. cbn [fst snd].
    split_and; auto using Contract_set_allocated; simpl; lia.
Qed.

Lemma reject_error_is_error reason n : is_error (reject_error reason n).
Proof.
  unfold reject_error, is_error.
  destruct (if negb (truthy reason) then VString "Canceled" else reason);
    eexists; reflexivity.
Qed.

Lemma Contract_rejected reason e :
  Contract e -> __state e < States.did ->
  Contract (rejected reason e) /\ __state e <= __state (rejected reason e) /\
  States.did <= __state (rejected reason e).
Proof.
  intros C L.
  destruct (rejected_fields reason e) as (Fi & Fp & Fc & Ft & Fa & Fe & Fr).
  pose proof (rejected_state reason e) as St.
  assert (B : States.canceled <= __state (rejected reason e))
    by (rewrite St; destruct (isFail_of reason); slia).
  split_and; try slia.
  destruct C as [V H R Er Ch Gi Gd En]. constructor.
  - rewrite St. unfold valid_state. destruct (isFail_of reason); auto 10.
  - rewrite Ft, St. reflexivity.
  - intros _. exact Fr.
  - rewrite rejected_isRejected, Fe. apply reject_error_is_error.
  - intros _. slia.
  - intros X. exfalso. slia.
  - intros X. exfalso. slia.
  - rewrite Ft. simpl. exact En.
Qed.

Lemma bound_rejectOrLog cfg reason e :
  Contract e -> bound_post e States.did (__rejectOrLog cfg reason e).
Proof.
  intros C. destruct (isSettled e) eqn:S.
  - rewrite rejectOrLog_settled by auto.
    apply isSettled_iff in S; [|apply C].
    apply bound_post_above; unfold ret; cbn [fst snd];
      destruct (_ && _); simpl; auto using Contract_log_warn; slia.
  - rewrite rejectOrLog_unsettled by auto.
    apply isSettled_false_iff in S; [|apply C].
    destruct (Contract_rejected reason e C S) as (C' & M & D).
    apply bound_post_above; unfold ret; cbn [fst snd]; auto; slia.
Qed.

(** Entering the phases. *)
Lemma unsettled_bits e :
  Contract e -> __state e < States.did ->
  isDone e = false /\ isRejected e = false /\ __error e = VNull.
Proof.
  intros C U. pose proof (con_error _ C) as Er.
  assert (D : isDone e = false /\ isRejected e = false).
  { unfold isDone, isRejected.
    destruct (valid_unsettled _ (con_valid _ C) U) as [X|[X|[X|X]]];
      rewrite X; split; reflexivity. }
  destruct D as (D1 & D2). rewrite D2 in Er. auto.
Qed.

Lemma Contract_enter_init e :
  Contract e -> __state e < States.init ->
  Contract (log (EvEnter HInit) (set_state States.init e)).
Proof.
  intros C L. destruct (unsettled_bits e C) as (D1 & D2 & D3); [slia|].
  destruct C as [V H R Er Ch Gi Gd En].
  constructor; simpl; auto; try discriminate; try lia.
  - unfold valid_state; auto.
  - intros N. specialize (Ch N). slia.
  - repeat split; auto.
Qed.

Lemma Contract_validated_at answer e :
  Contract e -> States.init <= __state e < States.will ->
  Contract (validated_at answer e).
Proof.
  intros C (L0 & L). destruct (unsettled_bits e C) as (D1 & D2 & D3); [slia|].
  assert (E : __state e = States.init).
  { destruct (valid_unsettled _ (con_valid _ C)) as [X|[X|[X|X]]]; slia. }
  pose proof (con_init _ C E) as Gi0.
  destruct C as [V H R Er Ch Gi Gd En]. unfold validated_at.
  constructor; simpl; auto; try discriminate.
  - unfold valid_state; auto.
  - intros N. specialize (Ch N). slia.
Qed.

Lemma Contract_enter_will a e :
  Contract e -> States.init <= __state e < States.will ->
  a = None \/ a = Some [] ->
  Contract (log (EvEnter HWill)
              (log (EvEnter HLock) (validated_at (Returns a) e))) /\
  Willed (log (EvEnter HWill)
              (log (EvEnter HLock) (validated_at (Returns a) e))).
Proof.
  intros C L A. pose proof (Contract_validated_at (Returns a) e C L) as C1.
  assert (Gi0 : (0 < enters HInit (trace e))%nat).
  { destruct C1 as [_ _ _ _ _ _ _ ((_ & X) & _)]. exact X. }
  split; [|intros _; simpl; lia].
  destruct C1 as [V H R Er Ch Gi Gd En].
  constructor; auto.
  unfold validated_at in *. simpl in En. destruct En as ((X1 & X2) & X3).
  simpl. unfold entry_ok. simpl. split_and; auto.
  destruct A as [->| ->]; auto.
Qed.

Lemma Contract_enter_do e :
  Contract e -> Willed e -> States.will <= __state e < States.do ->
  Contract (log (EvEnter HDo) (set_state States.do e)).
Proof.
  intros C W (L0 & L). destruct (unsettled_bits e C) as (D1 & D2 & D3); [slia|].
  assert (E : __state e = States.will).
  { destruct (valid_unsettled _ (con_valid _ C)) as [X|[X|[X|X]]]; slia. }
  specialize (W E).
  destruct C as [V H R Er Ch Gi Gd En].
  constructor; simpl; auto; try discriminate; try lia.
  - unfold valid_state; auto.
  - repeat split; auto.
Qed.

Lemma Contract_enter_doDefault e :
  Contract e -> __state e = States.do ->
  Contract (log (EvEnter HDoDefault) e).
Proof.
  intros C E. pose proof (con_do _ C E) as Gd0.
  destruct C as [V H R Er Ch Gi Gd En].
  constructor; simpl; auto.
  repeat split; auto. now rewrite H.
Qed.

Lemma Contract_enter_finally e :
  Contract e -> States.did <= __state e < States.finished ->
  Contract (log (EvEnter HFinally) e).
Proof.
  intros C (L & U).
  destruct C as [V H R Er Ch Gi Gd En].
  constructor; simpl; auto.
  repeat split; auto. rewrite H. unfold hook_state.
  pose proof V as V'. cases_state V'; rewrite V' in *; auto; exfalso; slia.
Qed.


Section Kept.

Variable cfg : Config.
Variable nested : Call -> M unit.
Hypothesis Hkept : contract_kept nested.

Lemma kept_run_script A (s : Script A) e :
  Contract e -> Willed e -> kept_post e (run_script nested s e).
Proof.
  revert e. induction s as [a|ex|k IH|c k IH]; intros e C W; cbn [run_script].
  - unfold kept_post, ret. cbn [snd]. split_and; auto; lia.
  - unfold kept_post, throw. cbn [snd]. split_and; auto; lia.
  - apply IH; auto.
  - destruct (Hkept c e C W) as (C1 & L1 & W1).
    destruct (nested c e) as [[a|ex|] e1]; cbn [fst snd] in *.
    + apply (kept_post_from _ e e1); auto.
    + apply (kept_post_from _ e e1); auto.
    + unfold kept_post. cbn [snd]. auto.
Qed.

Lemma kept_call_hook A h (body : Script A) e :
  Contract (log (EvEnter h) e) -> Willed (log (EvEnter h) e) ->
  kept_post e (call_hook nested h body e).
Proof.
  intros C W. unfold call_hook. rewrite bind_modify.
  apply (kept_post_from _ e (log (EvEnter h) e)).
  - apply kept_run_script; auto.
  - simpl. lia.
Qed.

(** A hook called at the state [k] above will. *)
Lemma bound_call_hook A h (body : Script A) e k :
  Contract (log (EvEnter h) e) -> States.will < __state e -> k <= __state e ->
  bound_post e k (call_hook nested h body e).
Proof.
  intros C W K.
  destruct (kept_call_hook A h body e C) as (C1 & L1 & W1).
  { apply Willed_above. simpl. lia. }
  unfold bound_post. split_and; auto.
  destruct (fst _); auto; lia.
Qed.

Lemma contract_executePhaseInit e :
  Contract e -> Willed e ->
  contract_post e States.init (__executePhaseInit cfg nested e).
Proof.
  intros C W. unfold __executePhaseInit. rewrite bind_get. unfold when.
  destruct (Z.ltb_spec (__state e) States.init) as [L|L].
  - rewrite bind_modify.
    apply (contract_post_of_kept _ e (set_state States.init e));
      [|simpl; lia|simpl; lia].
    apply kept_call_hook.
    + apply Contract_enter_init; auto.
    + intros X. simpl in X. discriminate.
  - apply contract_post_here; auto.
Qed.

Lemma contract_executePhaseWill e :
  Contract e -> Willed e -> States.init <= __state e ->
  contract_post e States.will (__executePhaseWill cfg nested e).
Proof.
  intros C W L0.
  destruct (Z_lt_le_dec (__state e) States.will) as [L|L].
  2:{ rewrite executePhaseWill_skip by auto. apply contract_post_here; auto. }
  rewrite executePhaseWill_eq by auto.
  assert (V : forall a, Contract (validated_at a e))
    by (intros; apply Contract_validated_at; auto).
  assert (H : forall a, a = None \/ a = Some [] ->
            contract_post e States.will
              (call_hook nested HWill (_onPhaseWill cfg)
                 (log (EvEnter HLock) (validated_at (Returns a) e)))).
  { intros a A. destruct (Contract_enter_will a e C (conj L0 L) A) as (C1 & W1).
    apply (contract_post_of_kept _ e (log (EvEnter HLock)
                                        (validated_at (Returns a) e)));
      [|simpl; lia|simpl; lia].
    apply kept_call_hook; auto. }
  destruct (_validate cfg (set_state States.will e)) as [[[|v0 rest]|]|ex];
    auto.
  - destruct (Contract_rejected v0 _ (V (Returns (Some (v0 :: rest)))))
      as (C2 & M2 & D2); [simpl; slia|].
    simpl in M2.
    unfold contract_post. cbn [fst snd]. split_and; auto; try slia.
    apply Willed_above. slia.
  - apply contract_post_thrown; auto. simpl. lia.
Qed.

Lemma bound_executePhaseDoDefaultAsync e :
  Contract e -> States.do <= __state e ->
  bound_post e States.do (__executePhaseDoDefaultAsync cfg nested e).
Proof.
  intros C L. unfold __executePhaseDoDefaultAsync. rewrite bind_get.
  destruct (isSettled e) eqn:S; cbn [negb].
  2:{ apply isSettled_false_iff in S; [|apply C].
      destruct (valid_do_or_settled _ (con_valid _ C) L) as [D|D]; [|lia].
      unfold bind at 1.
      destruct (bound_call_hook _ HDoDefault (_doDefault cfg) e States.do)
        as (C1 & L1 & K1); try slia.
      { apply Contract_enter_doDefault; auto. }
      destruct (call_hook nested HDoDefault (_doDefault cfg) e)
        as [[a|ex|] e1]; cbn [fst snd] in *;
        try (unfold bound_post; cbn [fst snd]; split_and; auto; fail).
      rewrite bind_get. destruct (negb (isSettled e1));
        apply bound_post_above; unfold ret; cbn [fst snd]; auto; slia. }
  apply bound_post_above; unfold ret; cbn [fst snd]; auto; slia.
Qed.

Lemma bound_executePhaseDo e :
  Contract e -> Willed e -> States.will <= __state e ->
  bound_post e States.do (__executePhaseDo cfg nested e).
Proof.
  intros C W L0. unfold __executePhaseDo. rewrite bind_get.
  destruct (Z.ltb_spec (__state e) States.do) as [L|L].
  2:{ apply bound_post_above; unfold ret; cbn [fst snd]; auto; slia. }
  rewrite bind_modify. unfold bind at 1.
  destruct (bound_call_hook _ HDo (_onPhaseDo cfg) (set_state States.do e)
              States.do) as (C1 & L1 & K1); try (simpl; slia).
  { apply Contract_enter_do; auto. }
  cbn [__state set_state] in L1.
  destruct (call_hook nested HDo (_onPhaseDo cfg) (set_state States.do e))
    as [[promise|ex|] e1]; cbn [fst snd] in *;
    try (unfold bound_post; cbn [fst snd]; split_and; auto; slia).
  assert (D : bound_post e States.do
                ((p <- __executePhaseDoDefaultAsync cfg nested ;;
                  ret (option_map HookPromise p)) e1)).
  { unfold bind. destruct (bound_executePhaseDoDefaultAsync e1 C1)
      as (C2 & L2 & K2); auto.
    destruct (__executePhaseDoDefaultAsync cfg nested e1) as [[a|ex|] e2];
      cbn [fst snd] in *; unfold bound_post, ret; cbn [fst snd];
      split_and; auto; slia. }
  destruct (isSync cfg).
  - rewrite bind_get. unfold when.
    destruct (isSettled e1) eqn:S; cbn [negb].
    + rewrite bind_ret. apply bound_post_above; unfold ret; cbn [fst snd]; auto; slia.
    + apply isSettled_false_iff in S; [|apply C1].
      destruct (valid_do_or_settled _ (con_valid _ C1) K1) as [E|E]; [|lia].
      unfold bind at 1. unfold bind at 1.
      destruct (bound_call_hook _ HDoDefault (_doDefault cfg) e1 States.do)
        as (C2 & L2 & K2); try slia.
      { apply Contract_enter_doDefault; auto. }
      destruct (call_hook nested HDoDefault (_doDefault cfg) e1)
        as [[a|ex|] e2]; cbn [fst snd] in *;
        unfold bound_post, ret; cbn [fst snd]; split_and; auto; slia.
  - rewrite bind_get. destruct promise as [t|]; [|exact D].
    destruct (isSettled e1); [exact D|].
    apply bound_post_above; unfold ret; cbn [fst snd]; auto; slia.
Qed.

Lemma bound_log_finally_error ex e :
  Contract e -> States.will < __state e ->
  bound_post e (__state e) (log_finally_error cfg ex e).
Proof.
  intros C W.
  destruct (log_finally_error_cases cfg ex e) as [E|[E|(_ & _ & te & E)]];
    rewrite E; apply bound_post_above; unfold ret; cbn [fst snd];
    auto using Contract_log_warn, Contract_set_allocated;
    simpl; lia.
Qed.

(** Marking the execution finished. *)
Lemma Contract_finish e :
  Contract e -> States.did <= __state e ->
  Contract (set_state (Z.lor (__state e) States.finished) e) /\
  States.finished <= Z.lor (__state e) States.finished /\
  __state e <= Z.lor (__state e) States.finished.
Proof.
  intros [V H R Er Ch Gi Gd En] L.
  assert (B : valid_state (Z.lor (__state e) States.finished) /\
              States.finished <= Z.lor (__state e) States.finished /\
              __state e <= Z.lor (__state e) States.finished).
  { pose proof V as V'. unfold valid_state.
    cases_state V'; rewrite V' in *; try (exfalso; slia);
      split_and; auto 10; try discriminate. }
  destruct B as (B1 & B2 & B3). split_and; auto.
  constructor; simpl; auto.
  - unfold isDone in *. simpl. now rewrite land_lor_finished.
  - unfold isRejected in *. simpl. now rewrite land_lor_finished.
  - intros _. slia.
  - intros X. exfalso. slia.
  - intros X. exfalso. slia.
Qed.

Lemma bound_finally_tail e :
  Contract e -> States.did <= __state e < States.finished ->
  bound_post e States.did
    ((try_catch (call_hook nested HFinally (_onPhaseFinally cfg))
        (log_finally_error cfg) ;;
      e1 <- get ;;
      modify (set_state (Z.lor (__state e1) States.finished)) ;;
      e2 <- get ;;
      match __promiseControl e2 with
      | Some promiseControl =>
          if isDone e2 then call_resolve promiseControl (result e2)
          else call_reject promiseControl (error e2)
      | None => ret tt
      end) e).
Proof.
  intros C (L & U).
  assert (H : bound_post e States.did
                (try_catch (call_hook nested HFinally (_onPhaseFinally cfg))
                   (log_finally_error cfg) e)).
  { unfold try_catch.
    destruct (bound_call_hook _ HFinally (_onPhaseFinally cfg) e States.did)
      as (C1 & L1 & K1); try slia.
    { apply Contract_enter_finally; auto. }
    destruct (call_hook nested HFinally (_onPhaseFinally cfg) e)
      as [[a|ex|] e1]; cbn [fst snd] in *;
      try (unfold bound_post; cbn [fst snd]; split_and; auto; lia).
    apply (bound_post_from _ e e1 States.did (__state e1)); auto; try lia.
    apply bound_log_finally_error; auto. slia. }
  unfold bind at 1. destruct H as (C1 & L1 & K1).
  destruct (try_catch _ _ e) as [[[]|ex|] e1]; cbn [fst snd] in *;
    try (unfold bound_post; cbn [fst snd]; split_and; auto; lia).
  rewrite bind_get, bind_modify, bind_get.
  destruct (Contract_finish e1 C1 K1) as (C2 & F2 & M2).
  set (e2 := set_state (Z.lor (__state e1) States.finished) e1) in *.
  assert (P : forall pc s, bound_post e States.did
                (modify (set_promiseControl (Some (settle s pc))) e2)).
  { intros. apply bound_post_above; unfold modify; cbn [fst snd];
      auto using Contract_set_promiseControl; simpl; slia. }
  assert (T : forall msg, bound_post e States.did
                ((ex <- new_TypeError msg ;; @throw unit ex) e2)).
  { intros. destruct (new_TypeError_eq msg e2) as (v & Eq).
    unfold bind. rewrite Eq. unfold throw.
    apply bound_post_above; unfold ret; cbn [fst snd];
      auto using Contract_set_allocated; simpl; slia. }
  destruct (__promiseControl e2) as [pc|].
  - unfold call_resolve, call_reject.
    destruct (isDone e2).
    + destruct (PromiseControl.resolve pc); [apply P | apply T].
    + destruct (PromiseControl.reject pc); [apply P | apply T].
  - apply bound_post_above; unfold ret; cbn [fst snd]; auto; simpl; slia.
Qed.

(** The finally phase, started above the state will. *)
Lemma bound_executePhaseFinally e :
  Contract e -> States.will < __state e ->
  bound_post e (__state e) (__executePhaseFinally cfg nested e).
Proof.
  intros C W. unfold __executePhaseFinally. rewrite bind_get. unfold when at 1.
  destruct (Z.ltb_spec (__state e) States.finished) as [L|L].
  2:{ apply bound_post_above; unfold ret; cbn [fst snd]; auto; lia. }
  destruct (isSettled e) eqn:S.
  - unfold when. cbn [negb]. rewrite bind_ret.
    apply isSettled_iff in S; [|apply C].
    apply (bound_post_from _ e e _ States.did); try lia.
    apply bound_finally_tail; auto.
  - unfold when. cbn [negb].
    apply isSettled_false_iff in S; [|apply C].
    destruct (Z.eq_dec (__state e) States.do) as [E|E].
    + unfold bind at 1. rewrite done_do by auto.
      destruct (kept_done VUndefined e C) as (C1 & _);
        [apply Willed_above; slia|].
      rewrite done_do in C1 by auto. cbn [snd] in C1.
      apply (bound_post_from _ e _ _ States.did _
               (bound_finally_tail _ C1 ltac:(simpl; slia))); simpl; slia.
    + unfold bind at 1. rewrite done_not_do by (auto; apply C).
      apply bound_post_above; unfold ret; cbn [fst snd];
        auto using Contract_set_allocated; simpl; lia.
Qed.

(** Below the do phase the finally phase refuses to run. *)
Lemma kept_executePhaseFinally e :
  Contract e -> Willed e -> kept_post e (__executePhaseFinally cfg nested e).
Proof.
  intros C W. destruct (Z_lt_le_dec States.will (__state e)) as [A|A].
  - apply (bound_post_kept _ _ (__state e)); auto.
    apply bound_executePhaseFinally; auto.
  - unfold __executePhaseFinally. rewrite bind_get. unfold when.
    assert (S : isSettled e = false)
      by (apply isSettled_false_iff; [apply C | slia]).
    destruct (Z.ltb_spec (__state e) States.finished); [|slia].
    rewrite S. cbn [negb]. unfold bind at 1.
    rewrite done_not_do by (try apply C; slia).
    unfold kept_post. cbn [snd].
    split_and; auto using Contract_set_allocated; simpl; lia.
Qed.

Lemma kept_reject reason e :
  Contract e -> Willed e -> kept_post e (reject cfg nested reason e).
Proof.
  intros C W. pose proof (con_valid _ C) as V.
  destruct (Z_lt_le_dec (__state e) States.did) as [L|L].
  - destruct (Contract_rejected reason e C L) as (C1 & M1 & D1).
    destruct (valid_unsettled _ V L) as [U|X].
    + rewrite reject_unstarted by auto.
      apply (kept_post_from _ e (rejected reason e)); auto.
      apply (bound_post_kept _ _ (__state (rejected reason e))); [|slia].
      apply bound_executePhaseFinally; auto. slia.
    + rewrite reject_executing by auto.
      apply kept_post_above; cbn [snd]; auto; slia.
  - rewrite reject_settled by auto.
    apply kept_post_above; simpl; auto using Contract_set_allocated; slia.
Qed.

Lemma kept_callInside A (f : M A) e :
  (forall e1, Contract e1 -> Willed e1 -> kept_post e1 (f e1)) ->
  Contract e -> Willed e -> kept_post e (__callInside f e).
Proof.
  intros H C W. destruct (__isInside e) eqn:In.
  - rewrite callInside_inside by auto.
    unfold kept_post. cbn [snd].
    split_and; auto using Contract_set_allocated; simpl; lia.
  - rewrite callInside_outside by auto.
    destruct (H (set_isInside true e) (Contract_set_isInside true e C))
      as (C1 & L1 & W1); auto.
    destruct (f (set_isInside true e)) as [[a|ex|] e1]; cbn [fst snd] in *;
      unfold kept_post; cbn [snd];
      split_and; auto using Contract_set_isInside.
Qed.

(** The guarded phases of [execute]. *)
Lemma bound_guarded_do A (g : option DoPromise -> A) (h : Value -> M A) e :
  (forall ex e1, Contract e1 -> bound_post e1 States.did (h ex e1)) ->
  Contract e -> Willed e ->
  bound_post e States.do
    (try_catch
       (__executePhaseInit cfg nested ;; __executePhaseWill cfg nested ;;
        p <- __executePhaseDo cfg nested ;; ret (g p)) h e).
Proof.
  intros H C W.
  assert (P : contract_post e States.do
                ((__executePhaseInit cfg nested ;;
                  __executePhaseWill cfg nested ;;
                  p <- __executePhaseDo cfg nested ;; ret (g p)) e)).
  { apply (contract_post_bind _ _ _ _ _ States.init).
    { apply contract_executePhaseInit; auto. }
    intros _ e1 C1 W1 _ K1. apply (contract_post_bind _ _ _ _ _ States.will).
    { apply contract_executePhaseWill; auto. }
    intros _ e2 C2 W2 _ K2. apply (contract_post_bind _ _ _ _ _ States.do).
    { apply bound_post_contract; [|slia].
      apply bound_executePhaseDo; auto. }
    intros p e3 C3 W3 _ K3. apply contract_post_here; auto. }
  destruct P as (C1 & L1 & K1). unfold try_catch.
  destruct ((_ ;; _) e) as [[a|ex|] e1]; cbn [fst snd] in *.
  - destruct K1. unfold bound_post. cbn [fst snd]. auto.
  - destruct (H ex e1 C1) as (C2 & L2 & K2).
    unfold bound_post. split_and; auto; try lia.
    destruct (fst (h ex e1)); auto; slia.
  - unfold bound_post. cbn [fst snd]. auto.
Qed.

Lemma bound_executeSyncAction e :
  Contract e -> Willed e ->
  bound_post e States.do (__executeSyncAction cfg nested e).
Proof.
  intros C W. unfold __executeSyncAction. unfold bind at 1.
  destruct (bound_guarded_do unit (fun _ => tt) (__rejectOrLog cfg) e)
    as (C1 & L1 & K1); auto.
  { intros. apply bound_rejectOrLog; auto. }
  destruct (try_catch _ _ e) as [[a|ex|] e1]; cbn [fst snd] in *;
    try (unfold bound_post; cbn [fst snd]; auto; fail).
  apply (bound_post_from _ e e1 States.do (__state e1)); auto.
  apply bound_executePhaseFinally; auto. slia.
Qed.

Lemma bound_executeAsyncAction e :
  Contract e -> Willed e ->
  bound_post e States.do (__executeAsyncAction cfg nested e).
Proof.
  intros C W. unfold __executeAsyncAction. unfold bind at 1.
  destruct (bound_guarded_do Chain
              (fun p => match p with
                        | Some dp => Await dp
                        | None => FinallyQueued
                        end)
              (fun ex => __rejectOrLog cfg ex ;; ret FinallyQueued) e)
    as (C1 & L1 & K1); auto.
  { intros ex e1 C0. unfold bind. rewrite rejectOrLog_normal.
    destruct (bound_rejectOrLog cfg ex e1 C0) as (C2 & L2 & K2).
    rewrite rejectOrLog_normal in K2. cbn [fst] in K2.
    unfold bound_post, ret. cbn [fst snd]. auto. }
  destruct (try_catch _ _ e) as [[c|ex|] e1]; cbn [fst snd] in *;
    try (unfold bound_post; cbn [fst snd]; auto; fail).
  unfold schedule, modify.
  apply bound_post_above; unfold ret; cbn [fst snd];
    auto using Contract_set_chains; simpl; slia.
Qed.

Lemma kept_execute e :
  Contract e -> Willed e -> kept_post e (execute cfg nested e).
Proof.
  intros C W. unfold execute. rewrite bind_get.
  destruct (__state e >? States.will).
  - apply kept_throw_new; auto. intros; apply new_OperationInvalidError_eq.
  - apply kept_callInside; auto. intros e1 C1 W1.
    destruct (isSync cfg).
    + apply (bound_post_kept _ _ States.do); [|slia].
      apply bound_executeSyncAction; auto.
    + apply (bound_post_kept _ _ States.do); [|slia].
      apply bound_executeAsyncAction; auto.
Qed.

Lemma kept_executeWill e :
  Contract e -> Willed e -> kept_post e (executeWill cfg nested e).
Proof.
  intros C W. unfold executeWill. rewrite bind_get.
  destruct (__state e >? States.will).
  - apply kept_throw_new; auto. intros; apply new_OperationInvalidError_eq.
  - apply kept_callInside; auto. intros e1 C1 W1.
    assert (P : contract_post e1 States.will
                  ((__executePhaseInit cfg nested ;;
                    __executePhaseWill cfg nested) e1)).
    { apply (contract_post_bind _ _ _ _ _ States.init).
      { apply contract_executePhaseInit; auto. }
      intros _ e2 C2 W2 _ K2. apply contract_executePhaseWill; auto. }
    destruct P as (C2 & L2 & K2). unfold try_catch.
    destruct ((_ ;; _) e1) as [[a|ex|] e2]; cbn [fst snd] in *.
    + destruct K2. unfold kept_post. cbn [snd]. auto.
    + apply (kept_post_from _ e1 e2); auto.
      apply (bound_post_kept _ _ States.did); [|slia].
      apply bound_rejectOrLog; auto.
    + unfold kept_post. cbn [snd]. auto.
Qed.

Lemma kept_promise e : Contract e -> Willed e -> kept_post e (promise e).
Proof.
  intros C W.
  assert (H : __state (snd (promise e)) = __state e /\
              trace (snd (promise e)) = trace e /\
              __result (snd (promise e)) = __result e /\
              __error (snd (promise e)) = __error e /\
              chains (snd (promise e)) = chains e).
  { unfold promise, __getPromiseControl, __createPromiseControl.
    unfold_monad. destruct (__promiseControl e); cbn [fst snd]; auto.
    destruct (isFinished e); cbn [fst snd]; auto. }
  destruct H as (S & T & R & Er & Ch). unfold kept_post. split_and.
  - apply (Contract_frame e); auto.
  - lia.
  - apply (Willed_frame e); auto.
Qed.

Lemma kept_dispatch : contract_kept (dispatch cfg nested).
Proof.
  intros c e C W. destruct c; cbn [dispatch].
  - apply kept_execute; auto.
  - apply kept_executeWill; auto.
  - apply kept_done; auto.
  - apply kept_reject; auto.
  - unfold bind. destruct (kept_promise e C W) as (C1 & L1 & W1).
    destruct (promise e) as [[p|ex|] e1]; cbn [fst snd] in *;
      unfold kept_post, ret; cbn [snd]; auto.
Qed.

Lemma nth_error_nonempty A (l : list A) i x :
  nth_error l i = Some x -> l <> [].
Proof. intros E Z. rewrite Z in E. destruct i; discriminate. Qed.

Lemma kept_on_settle i r e :
  Contract e -> Willed e -> kept_post e (on_settle cfg nested i r e).
Proof.
  intros C W. unfold on_settle. rewrite bind_get.
  assert (Same : kept_post e (ret tt e))
    by (unfold kept_post, ret; cbn [snd]; split_and; auto; lia).
  destruct (nth_error (chains e) i) as [c|] eqn:E; [|exact Same].
  pose proof (con_chains _ C (nth_error_nonempty _ _ _ _ E)) as D.
  assert (Set_ : forall c', kept_post e (set_chain i c' e)).
  { intros. unfold set_chain, modify. apply kept_post_above; cbn [snd];
      auto using Contract_set_chains; simpl; slia. }
  destruct c as [p| | |]; try exact Same.
  destruct r as [reason|]; [apply Set_|].
  destruct p as [t|t]; [apply Set_|].
  unfold bind at 1. unfold try_catch, bind at 1.
  destruct (bound_executePhaseDoDefaultAsync e C D) as (C1 & L1 & K1).
  destruct (__executePhaseDoDefaultAsync cfg nested e) as [[q|ex|] e1];
    cbn [fst snd] in *; unfold ret; cbn [fst snd];
    try (unfold kept_post; cbn [snd]; auto; fail);
    unfold set_chain, modify; apply kept_post_above; cbn [snd];
    auto using Contract_set_chains; simpl; slia.
Qed.

Lemma kept_on_tick i e :
  Contract e -> Willed e -> kept_post e (on_tick cfg nested i e).
Proof.
  intros C W. unfold on_tick. rewrite bind_get.
  assert (Same : kept_post e (ret tt e))
    by (unfold kept_post, ret; cbn [snd]; split_and; auto; lia).
  destruct (nth_error (chains e) i) as [c|] eqn:E; [|exact Same].
  pose proof (con_chains _ C (nth_error_nonempty _ _ _ _ E)) as D.
  destruct c as [p|reason| |]; try exact Same.
  - unfold bind at 1. unfold try_catch. rewrite rejectOrLog_normal.
    destruct (bound_rejectOrLog cfg reason e C) as (C1 & L1 & K1).
    rewrite rejectOrLog_normal in K1. cbn [fst] in K1.
    unfold set_chain, modify. apply kept_post_above; cbn [snd];
      [apply Contract_set_chains; auto; slia | simpl; lia | simpl; slia].
  - unfold bind at 1. unfold set_chain at 1, modify.
    set (e1 := set_chains _ e).
    assert (C1 : Contract e1) by (apply Contract_set_chains; auto).
    apply (kept_post_from _ e e1); [|simpl; lia].
    apply kept_callInside;
      [intros e2 C2 W2; apply kept_executePhaseFinally; auto | auto
      |apply Willed_above; simpl; slia].
Qed.

End Kept.

Lemma kept_api cfg fuel : contract_kept (api cfg fuel).
Proof.
  induction fuel as [|n IH]; rewrite api_unfold; apply kept_dispatch;
    cbn [nested_api]; auto.
  intros c e C W. unfold kept_post, out_of_fuel. cbn [snd]. split_and; auto; lia.
Qed.

Lemma kept_nested_api cfg fuel : contract_kept (nested_api cfg fuel).
Proof.
  destruct fuel; cbn [nested_api]; [|apply kept_api].
  intros c e C W. unfold kept_post, out_of_fuel. cbn [snd]. split_and; auto; lia.
Qed.

Lemma Contract_new : Contract new_Execution /\ Willed new_Execution.
Proof.
  split; [|intros X; discriminate].
  constructor; simpl; auto; try discriminate.
  - unfold valid_state; auto.
  - intros N. now contradiction N.
Qed.

Lemma kept_run_op cfg fuel op e :
  Contract e -> Willed e -> kept_post e (run_op cfg fuel op e).
Proof.
  intros C W. destruct op as [c|i r|i]; cbn [run_op].
  - apply kept_api; auto.
  - apply kept_on_settle; auto. apply kept_nested_api.
  - apply kept_on_tick; auto. apply kept_nested_api.
Qed.

Lemma reachable_Contract cfg e : reachable cfg e -> Contract e /\ Willed e.
Proof.
  induction 1 as [|e op fuel R (C & W)]; [apply Contract_new|].
  destruct (kept_run_op cfg (S fuel) op e C W) as (C1 & _ & W1). auto.
Qed.

Lemma entries_ok_app l t : entries_ok (l ++ t) -> entries_ok t.
Proof.
  induction l as [|ev l IH]; [auto|].
  destruct ev; cbn [app entries_ok]; intuition auto.
Qed.

(** The getters keep their word: [result] is [undefined] unless the
    execution is done, [error] is [null] unless it is rejected and an
    [Error] when it is, and an execution is never both done and
    rejected. *)
Theorem result_and_error_follow_outcome cfg e :
  reachable cfg e ->
  (isDone e = false -> result e = VUndefined) /\
  (isRejected e = false -> error e = VNull) /\
  (isRejected e = true -> exists err, error e = VError err) /\
  (isDone e = true -> isRejected e = false).
Proof.
  intros R. destruct (reachable_Contract cfg e R) as (C & _).
  pose proof (con_error _ C) as Er. split_and.
  - apply C.
  - intros H. now rewrite H in Er.
  - intros H. now rewrite H in Er.
  - pose proof (con_valid _ C) as V. unfold isDone, isRejected.
    cases_state V; rewrite V; auto; discriminate.
Qed.

Lemma result_and_error_follow_outcome_witness :
  reachable (invalid_action true) invalid_executed /\
  isDone invalid_executed = false /\
  result invalid_executed = VUndefined /\
  exists err, error invalid_executed = VError err.
Proof.
  assert (R : reachable (invalid_action true) invalid_executed)
    by (apply reachable_run1, reach_new).
  destruct (result_and_error_follow_outcome _ _ R) as (A & _ & B & _).
  split; [exact R|]. split; [reflexivity|]. split; [exact (A eq_refl)|].
  exact (B eq_refl).
Defined.

(** Every overridable method is called in the state of its phase and
    after the methods of the phases before: [_onPhaseInit] in the state
    init; [_validate] in the state will, after [_onPhaseInit];
    [_lockAction] directly after a [_validate] that reported no error,
    [_onPhaseWill] directly after [_lockAction]; [_onPhaseDo] in the state
    do, after [_onPhaseWill]; [_doDefault] in the state do, after
    [_onPhaseDo]; [_onPhaseFinally] in a settled state that is not
    finished. *)
Theorem overridable_methods_in_order cfg e l t :
  reachable cfg e ->
  (forall h, trace e = l ++ EvEnter h :: t -> entry_ok h t) /\
  (forall answer, trace e = l ++ EvValidated answer :: t ->
     hd 0 (history t) = States.will /\ (0 < enters HInit t)%nat).
Proof.
  intros R. destruct (reachable_Contract cfg e R) as (C & _).
  pose proof (con_entries _ C) as En.
  split; intros x E; rewrite E in En; apply entries_ok_app in En;
    cbn [entries_ok] in En; apply En.
Qed.

Lemma overridable_methods_in_order_witness :
  reachable (plain true) executed /\
  entry_ok HDo
    [EvState States.do; EvEnter HWill; EvEnter HLock;
     EvValidated (Returns None); EvState States.will; EvEnter HInit;
     EvState States.init].
Proof.
  split; [exact reachable_executed|].
  apply (proj1 (overridable_methods_in_order (plain true) executed
                  [EvState (Z.lor States.did States.finished);
                   EvEnter HFinally; EvState States.did; EvEnter HDoDefault]
                  _ reachable_executed) HDo).
  reflexivity.
Defined.
